(** * Detective Quest: rooms, clue ledger (BST) and clue -> suspect hash table

    Shallow embedding of [detetivequest.c].

    Conventions.
    - A C string is the [string] of the bytes before its terminating NUL.
    - [int] values are kept in [Z]; arithmetic on them is wrapped to 32 bits
      in two's complement ([wrap_int]).  [unsigned long] is 64 bits wide
      ([wrap_ulong]).
    - [NULL]-able pointers become [option]; the linked structures owned by
      one pointer (ledger nodes, hash chains) become inductive values; the
      rooms, which are aliased by the cursor [atual] and mutated in place,
      live in a store indexed by addresses.
    - [printf] output is a list of messages [Msg]; [stdin] is the list of
      lines successive [fgets] calls return. *)

From Stdlib Require Import ZArith Lia Ascii String.
From stdpp Require Import base option list sorting strings gmap.

Local Open Scope Z_scope.
#[local] Set Warnings "-clear-no-such-hyp".

(** ** Machine integers *)

Definition INT_MAX : Z := 2147483647.
Definition INT_MIN : Z := -2147483648.

(** Two's complement reduction of a mathematical integer to [int]. *)
Definition wrap_int (z : Z) : Z := (z + 2147483648) mod 4294967296 - 2147483648.

(** Reduction to [unsigned long]. *)
Definition wrap_ulong (z : Z) : Z := z mod 18446744073709551616.

Definition in_int (z : Z) : Prop := INT_MIN <= z <= INT_MAX.

(** ** String helpers *)

(** Value of a [char] seen as [unsigned char]. *)
Definition uchar (c : ascii) : Z := Z.of_N (N_of_ascii c).

(** [strcmp]: byte-wise comparison as unsigned chars; only the sign of the
    C result is specified, which is what [comparison] records. *)
Fixpoint strcmp (a b : string) : comparison :=
  match a, b with
  | EmptyString, EmptyString => Eq
  | EmptyString, String _ _ => Lt
  | String _ _, EmptyString => Gt
  | String x a', String y b' =>
      match Z.compare (uchar x) (uchar y) with
      | Eq => strcmp a' b'
      | Lt => Lt
      | Gt => Gt
      end
  end.

Definition newline : ascii := Ascii.ascii_of_nat 10.

(** [trim_nl]: drops the last byte when it is a newline. *)
Fixpoint trim_nl (s : string) : string :=
  match s with
  | EmptyString => EmptyString
  | String c EmptyString =>
      if Ascii.eqb c newline then EmptyString else String c EmptyString
  | String c rest => String c (trim_nl rest)
  end.

(** [tolower] in the C locale, on an [unsigned char] value. *)
Definition tolower (c : Z) : Z :=
  if (65 <=? c) && (c <=? 90) then c + 32 else c.

(** [(char) tolower((unsigned char) c)] *)
Definition lower_char (c : ascii) : ascii :=
  ascii_of_N (Z.to_N (tolower (uchar c))).

(** ** Clue ledger: binary search tree of collected clues *)

(** [PistaNode *]: [PNil] is the NULL pointer. *)
Inductive PistaNode : Type :=
| PNil : PistaNode
| PNode (esq : PistaNode) (pista : string) (contador : Z) (dir : PistaNode) : PistaNode.

Definition novoNoPista (pista : string) : PistaNode :=
  PNode PNil pista 1 PNil.

Fixpoint inserirPista (root : PistaNode) (pista : string) : PistaNode :=
  match root with
  | PNil => novoNoPista pista
  | PNode esq p contador dir =>
      match strcmp pista p with
      | Eq => PNode esq p (wrap_int (contador + 1)) dir
      | Lt => PNode (inserirPista esq pista) p contador dir
      | Gt => PNode esq p contador (inserirPista dir pista)
      end
  end.

(** [exibirPistasInOrder]: the lines printed, as (clue, count) pairs. *)
Fixpoint exibirPistasInOrder (root : PistaNode) : list (string * Z) :=
  match root with
  | PNil => []
  | PNode esq p contador dir =>
      exibirPistasInOrder esq ++ (p, contador) :: exibirPistasInOrder dir
  end.

(** Clues listed by the in-order traversal. *)
Definition chaves (root : PistaNode) : list string := (exibirPistasInOrder root).*1.

(** Strictly below, in the order of [strcmp]. *)
Definition str_lt (a b : string) : Prop := strcmp a b = Lt.

(** Search-tree invariant: the in-order listing is strictly ascending. *)
Definition bst (root : PistaNode) : Prop := StronglySorted str_lt (chaves root).

(** The ledger after collecting the clues of [ps], first to last. *)
Definition coletar (root : PistaNode) (ps : list string) : PistaNode :=
  foldl inserirPista root ps.

(** Shape of a ledger: the tree with keys kept and counters erased. *)
Fixpoint forma (root : PistaNode) : PistaNode :=
  match root with
  | PNil => PNil
  | PNode esq p _ dir => PNode (forma esq) p 0 (forma dir)
  end.

Fixpoint num_nos (root : PistaNode) : nat :=
  match root with
  | PNil => O
  | PNode esq _ _ dir => S (num_nos esq + num_nos dir)
  end.

(** ** Association table: chained hash table of [HASH_SIZE] buckets *)

Record HashEntry : Type := mkEntry { he_pista : string; he_suspeito : string }.

Definition HASH_SIZE : Z := 31.

(** Loop of [hash_djb2], from the current accumulator. *)
Fixpoint djb2_loop (hash : Z) (str : string) : Z :=
  match str with
  | EmptyString => hash
  | String c rest =>
      djb2_loop
        (wrap_ulong (wrap_ulong (wrap_ulong (Z.shiftl hash 5) + hash) + uchar c))
        rest
  end.

Definition hash_djb2 (str : string) : Z := djb2_loop 5381 str.

(** Bucket index [hash_djb2(pista) % HASH_SIZE]. *)
Definition balde (pista : string) : nat := Z.to_nat (hash_djb2 pista mod HASH_SIZE).

(** [tabelaHash]: the array of chains; a chain is the list of its entries
    from the head. *)
Abbreviation TabelaHash := (list (list HashEntry)).

(** State of the table after the initialising loop of [main]. *)
Definition tabela_vazia : TabelaHash := replicate (Z.to_nat HASH_SIZE) [].

Definition inserirNaHash (tab : TabelaHash) (pista suspeito : string) : TabelaHash :=
  let h := balde pista in
  <[h := mkEntry pista suspeito :: default [] (tab !! h)]> tab.

(** The [while (cur)] scan of one chain. *)
Fixpoint procurar (cur : list HashEntry) (pista : string) : option string :=
  match cur with
  | [] => None
  | e :: prox =>
      match strcmp (he_pista e) pista with
      | Eq => Some (he_suspeito e)
      | _ => procurar prox pista
      end
  end.

Definition encontrarSuspeito (tab : TabelaHash) (pista : string) : option string :=
  procurar (default [] (tab !! balde pista)) pista.

(** The table after a sequence of insertions, first to last. *)
Definition preencher (tab : TabelaHash) (ins : list (string * string)) : TabelaHash :=
  foldl (fun t kv => inserirNaHash t kv.1 kv.2) tab ins.

(** ** Counting the clues that point to a suspect *)

Fixpoint contarPistasQueApontam (tab : TabelaHash) (root : PistaNode)
    (suspeitoAlvo : string) : Z :=
  match root with
  | PNil => 0
  | PNode esq p contador dir =>
      let total := 0 in
      let total :=
        match encontrarSuspeito tab p with
        | Some sus =>
            match strcmp sus suspeitoAlvo with
            | Eq => wrap_int (total + contador)
            | _ => total
            end
        | None => total
        end in
      let total := wrap_int (total + contarPistasQueApontam tab esq suspeitoAlvo) in
      let total := wrap_int (total + contarPistasQueApontam tab dir suspeitoAlvo) in
      total
  end.

(** Whether clue [p] resolves, through the table, to exactly [alvo]. *)
Definition aponta (tab : TabelaHash) (alvo p : string) : bool :=
  bool_decide (encontrarSuspeito tab p = Some alvo).

(** Sum, over the listed nodes, of the counters of those whose clue
    resolves to [alvo]. *)
Definition soma_que_apontam (tab : TabelaHash) (alvo : string)
    (linhas : list (string * Z)) : Z :=
  foldr (fun pc acc => (if aponta tab alvo pc.1 then pc.2 else 0) + acc) 0 linhas.

(** The suspect given by the last pair of [ins] whose clue is [p], if any,
    and [antes] otherwise. *)
Definition mais_recente (p : string) (antes : option string)
    (ins : list (string * string)) : option string :=
  foldl (fun acc kv => if decide (kv.1 = p) then Some kv.2 else acc) antes ins.

(** ** Rooms *)

(** [struct Sala]; [esq]/[dir] hold the address of the child room. *)
Record Sala : Type := mkSala {
  nome : string;
  pista : option string;
  pistaColetada : bool;
  esq : option nat;
  dir : option nat
}.

Definition criarSala (nome : string) (pista : option string) : Sala :=
  mkSala nome pista false None None.

Definition marcar_coletada (s : Sala) : Sala :=
  mkSala (nome s) (pista s) true (esq s) (dir s).

Definition ligar_esq (filho : nat) (s : Sala) : Sala :=
  mkSala (nome s) (pista s) (pistaColetada s) (Some filho) (dir s).

Definition ligar_dir (filho : nat) (s : Sala) : Sala :=
  mkSala (nome s) (pista s) (pistaColetada s) (esq s) (Some filho).

(** ** Output *)

Inductive Msg : Type :=
| MTitulo                                   (* banner and instructions *)
| MComeco                                   (* Começando a investigação ... *)
| MSala (nome : string)                     (* Você está na sala: %s *)
| MPistaEncontrada (pista : string)         (* Pista encontrada: %s *)
| MJaColetada                               (* Esta sala já teve sua pista coletada ... *)
| MNenhumaPista                             (* Nenhuma pista nesta sala. *)
| MOpcoes                                   (* Opções: ...  Escolha: *)
| MEncerrar                                 (* Você optou por encerrar a exploração. *)
| MSemEsquerda                              (* Caminho à esquerda não existe ... *)
| MSemDireita                               (* Caminho à direita não existe ... *)
| MInvalido                                 (* Comando inválido. ... *)
| MCabecalhoPistas                          (* === PISTAS COLETADAS ... === *)
| MSemPistas                                (* Nenhuma pista coletada ... *)
| MPista (pista : string) (contador : Z)    (* - %s (vezes coletada: %d) *)
| MPedeAcusado                              (* Agora, indique o nome ...  Nome do acusado: *)
| MSemAcusacao                              (* Nenhum nome fornecido. Encerrando sem acusação. *)
| MAcusou (acusado : string)                (* Você acusou: %s *)
| MNumero (acusado : string) (total : Z)    (* Número de pistas ... %s: %d *)
| MSustentada                               (* Resultado: ACUSAÇÃO SUSTENTADA! ... *)
| MFraca                                    (* Resultado: ACUSAÇÃO FRACA. ... *)
| MFim.                                     (* Encerrando Detective Quest. ... *)

(** ** Exploration *)

(** What the loop of [explorarSalasComPistas] works on: the store of rooms,
    the cursor [atual] and the ledger root [*rootPistas]. *)
Record Estado : Type := mkEstado {
  salas : gmap nat Sala;
  atual : nat;
  rootPistas : PistaNode
}.

Inductive Fluxo : Type := Continua | Para.

(** First half of the loop body: announce the room, collect its clue. *)
Definition visitar (st : Estado) : option (Estado * list Msg) :=
  s ← salas st !! atual st;
  match pista s with
  | Some p =>
      if negb (pistaColetada s) then
        Some (mkEstado (<[atual st := marcar_coletada s]> (salas st)) (atual st)
                       (inserirPista (rootPistas st) p),
              [MSala (nome s); MPistaEncontrada p])
      else Some (st, [MSala (nome s); MJaColetada])
  | None => Some (st, [MSala (nome s); MNenhumaPista])
  end.

Definition chr (n : nat) : ascii := Ascii.ascii_of_nat n.
Definition cmd_s : ascii := chr 115.
Definition cmd_e : ascii := chr 101.
Definition cmd_d : ascii := chr 100.

(** Second half of the loop body, once [fgets] has delivered [linha]. *)
Definition comando (st : Estado) (linha : string) : option (Estado * list Msg * Fluxo) :=
  match trim_nl linha with
  | EmptyString => Some (st, [], Continua)
  | String c0 _ =>
      let cmd := lower_char c0 in
      if Ascii.eqb cmd cmd_s then Some (st, [MEncerrar], Para)
      else if Ascii.eqb cmd cmd_e then
        s ← salas st !! atual st;
        match esq s with
        | Some l => Some (mkEstado (salas st) l (rootPistas st), [], Continua)
        | None => Some (st, [MSemEsquerda], Continua)
        end
      else if Ascii.eqb cmd cmd_d then
        s ← salas st !! atual st;
        match dir s with
        | Some l => Some (mkEstado (salas st) l (rootPistas st), [], Continua)
        | None => Some (st, [MSemDireita], Continua)
        end
      else Some (st, [MInvalido], Continua)
  end.

(** The [while (1)] loop; returns the final state, the unread input and
    the output.  [None] only when a room address is not in the store. *)
Fixpoint explorar_loop (st : Estado) (stdin : list string)
    : option (Estado * list string * list Msg) :=
  '(st1, out1) ← visitar st;
  match stdin with
  | [] => Some (st1, [], out1 ++ [MOpcoes])
  | linha :: resto =>
      '(st2, out2, k) ← comando st1 linha;
      match k with
      | Para => Some (st2, resto, out1 ++ MOpcoes :: out2)
      | Continua =>
          '(st3, resto', out3) ← explorar_loop st2 resto;
          Some (st3, resto', out1 ++ MOpcoes :: out2 ++ out3)
      end
  end.

Definition explorarSalasComPistas (m : gmap nat Sala) (inicio : nat)
    (root : PistaNode) (stdin : list string)
    : option (Estado * list string * list Msg) :=
  '(st, resto, out) ← explorar_loop (mkEstado m inicio root) stdin;
  Some (st, resto, MComeco :: out).

(** States the loop goes through, in order: after each visit and after
    each command. *)
Fixpoint trajetoria (st : Estado) (stdin : list string) : list Estado :=
  match visitar st with
  | None => [st]
  | Some (st1, _) =>
      match stdin with
      | [] => [st; st1]
      | linha :: resto =>
          match comando st1 linha with
          | None => [st; st1]
          | Some (st2, _, Para) => [st; st1; st2]
          | Some (st2, _, Continua) => st :: st1 :: trajetoria st2 resto
          end
      end
  end.

(** Collected flag of the room at address [a] ([false] off the store). *)
Definition coletada (st : Estado) (a : nat) : bool :=
  default false (pistaColetada <$> salas st !! a).

(** Number of places in a run where the flag of room [a] goes from
    [false] to [true]. *)
Fixpoint transicoes (a : nat) (tr : list Estado) : nat :=
  match tr with
  | st :: ((st' :: _) as resto) =>
      ((if negb (coletada st a) && coletada st' a then 1 else 0)
       + transicoes a resto)%nat
  | _ => O
  end.

(** Number of places in a run where the flag of room [a] goes back from
    [true] to [false]. *)
Fixpoint limpezas (a : nat) (tr : list Estado) : nat :=
  match tr with
  | st :: ((st' :: _) as resto) =>
      ((if coletada st a && negb (coletada st' a) then 1 else 0)
       + limpezas a resto)%nat
  | _ => O
  end.

(** What of a room is fixed by [criarSala] and the wiring in [main]. *)
Definition planta (s : Sala) : string * option string * option nat * option nat :=
  (nome s, pista s, esq s, dir s).

(** A child pointer is either NULL or the address of a room. *)
Definition filho_valido (m : gmap nat Sala) (f : option nat) : Prop :=
  match f with
  | Some b => is_Some (m !! b)
  | None => True
  end.

#[local] Instance filho_valido_dec m f : Decision (filho_valido m f).
Proof. destruct f; simpl; apply _. Defined.

(** Every child pointer stored in a room is valid. *)
Definition fechado (m : gmap nat Sala) : Prop :=
  map_Forall (fun _ s => filho_valido m (esq s) ∧ filho_valido m (dir s)) m.

Definition bem_formado (st : Estado) : Prop :=
  fechado (salas st) ∧ is_Some (salas st !! atual st).

(** C [isspace] in the C locale: space, TAB, LF, VT, FF, CR. *)
Definition eh_espaco (c : ascii) : bool :=
  bool_decide (uchar c = 32 ∨ 9 <= uchar c <= 13).

(** Whether a line is a left, right or exit command of the loop. *)
Definition eh_comando (linha : string) : bool :=
  match trim_nl linha with
  | EmptyString => false
  | String c0 _ =>
      let cmd := lower_char c0 in
      Ascii.eqb cmd cmd_s || Ascii.eqb cmd cmd_e || Ascii.eqb cmd cmd_d
  end.

(** ** Accusation and [main] *)

(** Accusation phase of [main]; [lido] is what [fgets] returned and
    [avaliar] is the call [contarPistasQueApontam(rootPistas, .)]. *)
Definition acusar (avaliar : string → Z) (lido : option string) : list Msg :=
  let acusacao := default EmptyString lido in
  let acusacao := trim_nl acusacao in
  MPedeAcusado ::
  match acusacao with
  | EmptyString => [MSemAcusacao]
  | _ =>
      let totalQueApontam := avaliar acusacao in
      [MAcusou acusacao; MNumero acusacao totalQueApontam;
       if 2 <=? totalQueApontam then MSustentada else MFraca]
  end.

Definition fase_acusacao (tab : TabelaHash) (root : PistaNode)
    (lido : option string) : list Msg :=
  acusar (contarPistasQueApontam tab root) lido.

Definition listar_pistas (root : PistaNode) : list Msg :=
  match root with
  | PNil => [MSemPistas]
  | _ => map (fun pc => MPista pc.1 pc.2) (exibirPistasInOrder root)
  end.

(** The mansion wired in [main]; rooms are named by the order of their
    [criarSala] calls. *)
Definition hall : nat := 0%nat.
Definition biblioteca : nat := 1%nat.
Definition salaEstar : nat := 2%nat.
Definition cozinha : nat := 3%nat.
Definition jardim : nat := 4%nat.
Definition corredor : nat := 5%nat.
Definition oficina : nat := 6%nat.

Definition mansao : gmap nat Sala :=
  let m : gmap nat Sala := ∅ in
  let m := <[hall := criarSala "Hall de Entrada" None]> m in
  let m := <[biblioteca := criarSala "Biblioteca" (Some "Marca de luva com poeira")]> m in
  let m := <[salaEstar := criarSala "Sala de Estar" (Some "Copo quebrado com pegadas")]> m in
  let m := <[cozinha := criarSala "Cozinha" (Some "resto de chá de ervas")]> m in
  let m := <[jardim := criarSala "Jardim" None]> m in
  let m := <[corredor := criarSala "Corredor" (Some "notas rasgadas com iniciais A.B.")]> m in
  let m := <[oficina := criarSala "Oficina" (Some "peça de chave inglesa com verniz")]> m in
  let m := alter (ligar_esq biblioteca) hall m in
  let m := alter (ligar_dir salaEstar) hall m in
  let m := alter (ligar_esq cozinha) biblioteca m in
  let m := alter (ligar_dir jardim) biblioteca m in
  let m := alter (ligar_esq corredor) salaEstar m in
  let m := alter (ligar_dir oficina) salaEstar m in
  m.

Definition associacoes : list (string * string) :=
  [("Marca de luva com poeira", "Sr. Almeida");
   ("Copo quebrado com pegadas", "Sra. Beatriz");
   ("resto de chá de ervas", "Srta. Camila");
   ("notas rasgadas com iniciais A.B.", "Sra. Beatriz");
   ("peça de chave inglesa com verniz", "Sr. Almeida")].

Definition main (stdin : list string) : option (list Msg) :=
  let tab := preencher tabela_vazia associacoes in
  '(st, resto, out) ← explorarSalasComPistas mansao hall PNil stdin;
  Some (MTitulo :: out
        ++ MCabecalhoPistas :: listar_pistas (rootPistas st)
        ++ fase_acusacao tab (rootPistas st) (head resto)
        ++ [MFim]).

Definition nl : string := String newline EmptyString.

(** State in which [main] enters the exploration. *)
Definition estado_inicial : Estado := mkEstado mansao hall PNil.

(** ** Auxiliary notions and sample data *)

(** The update an insertion of a present clue [p] makes to one line of the
    in-order listing: the line of [p] gets the counter [c'], the others stay. *)
Definition atualiza (p : string) (c' : Z) (pc : string * Z) : string * Z :=
  if decide (pc.1 = p) then (p, c') else pc.

(** The table keeps its [HASH_SIZE] buckets. *)
Definition tabela_ok (tab : TabelaHash) : Prop := length tab = Z.to_nat HASH_SIZE.

(** Sum of all the counters of a listing. *)
Definition contagem_total (linhas : list (string * Z)) : Z :=
  foldr (fun pc acc => pc.2 + acc) 0 linhas.

(** Table and ledger of the example: A and C point to X, B to Y; A was
    collected twice, B and C once. *)
Definition tabela_ex : TabelaHash :=
  preencher tabela_vazia [("A", "X"); ("B", "Y"); ("C", "X")].

Definition ledger_ex : PistaNode := coletar PNil ["B"; "A"; "C"; "A"].

(** The library already visited, cursor on it. *)
Definition estado_biblioteca : Estado :=
  mkEstado (alter marcar_coletada biblioteca mansao) biblioteca
           (novoNoPista "Marca de luva com poeira").

(** The kitchen has no way out. *)
Definition estado_cozinha : Estado := mkEstado mansao cozinha PNil.

(** ** Further functions of the program *)

(** [to_lower_inplace]: every byte before the terminator is replaced by
    its [tolower]. *)
Fixpoint to_lower_inplace (s : string) : string :=
  match s with
  | EmptyString => EmptyString
  | String c rest => String (lower_char c) (to_lower_inplace rest)
  end.

(** [liberarHash]: the [for] loop releases the chain of every bucket and
    stores NULL in it. *)
Definition liberarHash (tab : TabelaHash) : TabelaHash :=
  foldl (fun t i => <[i := []]> t) tab (seq 0 (Z.to_nat HASH_SIZE)).

(** The djb2 recurrence over the integers, without any reduction. *)
Fixpoint djb2_exato (hash : Z) (str : string) : Z :=
  match str with
  | EmptyString => hash
  | String c rest => djb2_exato (hash * 33 + uchar c) rest
  end.

(** Clues announced as found in an output. *)
Definition pistas_encontradas (out : list Msg) : list string :=
  omap (fun m => match m with MPistaEncontrada p => Some p | _ => None end) out.

(** Whether a line is an exit command of the loop. *)
Definition eh_sair (linha : string) : bool :=
  match trim_nl linha with
  | EmptyString => false
  | String c0 _ => Ascii.eqb (lower_char c0) cmd_s
  end.

(** The lines that follow the first exit command. *)
Fixpoint depois_de_sair (stdin : list string) : list string :=
  match stdin with
  | [] => []
  | linha :: resto => if eh_sair linha then resto else depois_de_sair resto
  end.

(** A room that still holds a clue to collect. *)
Definition pendente (s : Sala) : Prop :=
  is_Some (pista s) ∧ pistaColetada s = false.

#[local] Instance pendente_dec s : Decision (pendente s).
Proof. unfold pendente. apply _. Defined.

(** Number of rooms of the store that still hold a clue to collect. *)
Definition pendentes (m : gmap nat Sala) : nat :=
  size (filter (fun kv => pendente kv.2) m).

(** [b] is the left or the right child of the room at [a]. *)
Definition filho (m : gmap nat Sala) (a b : nat) : Prop :=
  ∃ s, m !! a = Some s ∧ (esq s = Some b ∨ dir s = Some b).

(** Rooms and ledger agree: the rooms marked as collected have a clue and
    it is in the ledger, and every clue of the ledger is the clue of a room
    marked as collected. *)
Definition coerente (st : Estado) : Prop :=
  (∀ a s, salas st !! a = Some s → pistaColetada s = true →
          ∃ p, pista s = Some p ∧ p ∈ chaves (rootPistas st))
  ∧ (∀ k, k ∈ chaves (rootPistas st) →
          ∃ a s, salas st !! a = Some s ∧ pista s = Some k ∧ pistaColetada s = true).

(** No two rooms hold the same clue. *)
Definition pistas_distintas (m : gmap nat Sala) : Prop :=
  map_Forall (fun a sa =>
    map_Forall (fun b sb => is_Some (pista sa) → pista sa = pista sb → a = b) m) m.

(** Every clue of the ledger was counted once and no room holds a clue
    that is in the ledger and still to collect. *)
Definition sem_repeticao (st : Estado) : Prop :=
  Forall (fun pc => pc.2 = 1) (exibirPistasInOrder (rootPistas st))
  ∧ ∀ a s p, salas st !! a = Some s → pista s = Some p →
             pistaColetada s = false → p ∉ chaves (rootPistas st).

(** Outcome of releasing rooms: the store that is left, or a read or a
    release of a room that was already released (no defined behaviour), or
    not enough recursion depth granted. *)
Inductive Liberacao : Type :=
| Liberado (m : gmap nat Sala)
| Indefinido
| SemFuel.

(** [liberarSalas]: releases the rooms under [root], children first.
    Releasing a room, with the strings it owns, deletes it from the store.
    [root->esq] is read before the first call, [root->dir] after it, and
    the room itself is released after the second.  [fuel] bounds the depth
    of the recursion. *)
Fixpoint liberarSalas (fuel : nat) (m : gmap nat Sala) (root : option nat)
    : Liberacao :=
  match root with
  | None => Liberado m
  | Some a =>
      match fuel with
      | O => SemFuel
      | S fuel' =>
          match m !! a with
          | None => Indefinido
          | Some s =>
              match liberarSalas fuel' m (esq s) with
              | Liberado m1 =>
                  match m1 !! a with
                  | None => Indefinido
                  | Some s1 =>
                      match liberarSalas fuel' m1 (dir s1) with
                      | Liberado m2 =>
                          match m2 !! a with
                          | None => Indefinido
                          | Some _ => Liberado (delete a m2)
                          end
                      | r => r
                      end
                  end
              | r => r
              end
          end
      end
  end.

(** The rooms under [root] form a tree whose addresses are the set [D]:
    no room is reached twice. *)
Inductive arvore (m : gmap nat Sala) : option nat → gset nat → Prop :=
| arvore_nil : arvore m None ∅
| arvore_no a s Dl Dr :
    m !! a = Some s →
    arvore m (esq s) Dl → arvore m (dir s) Dr →
    a ∉ Dl → a ∉ Dr → Dl ## Dr →
    arvore m (Some a) ({[a]} ∪ Dl ∪ Dr).

(** The store without the rooms at the addresses of [D]. *)
Definition sem (D : gset nat) (m : gmap nat Sala) : gmap nat Sala :=
  filter (fun kv => kv.1 ∉ D) m.

(** A store in which two rooms share a child. *)
Definition salas_partilhadas : gmap nat Sala :=
  <[0%nat := mkSala "A" None false (Some 1%nat) (Some 1%nat)]>
    (<[1%nat := mkSala "B" None false None None]> ∅).

(** Number of times [p] occurs in [ps]. *)
Definition ocorrencias (p : string) (ps : list string) : Z :=
  Z.of_nat (length (filter (fun q => q = p) ps)).

(** * Properties *)

(** ** Machine integers *)

Lemma wrap_int_id z : in_int z → wrap_int z = z.
Proof. unfold in_int, INT_MIN, INT_MAX, wrap_int. intros H. rewrite Z.mod_small; lia. Qed.

Lemma wrap_int_add_l a b : wrap_int (wrap_int a + b) = wrap_int (a + b).
Proof.
  unfold wrap_int.
  replace ((a + 2147483648) mod 4294967296 - 2147483648 + b + 2147483648)
    with ((a + 2147483648) mod 4294967296 + b) by lia.
  rewrite Zplus_mod_idemp_l. do 2 f_equal. lia.
Qed.

Lemma wrap_int_add_r a b : wrap_int (a + wrap_int b) = wrap_int (a + b).
Proof. rewrite (Z.add_comm a), wrap_int_add_l. f_equal. lia. Qed.

(** ** Strings *)

Lemma uchar_inj x y : uchar x = uchar y → x = y.
Proof.
  unfold uchar. intros H. apply N2Z.inj in H.
  rewrite <- (ascii_N_embedding x), <- (ascii_N_embedding y). by rewrite H.
Qed.

Lemma strcmp_refl a : strcmp a a = Eq.
Proof. induction a as [|x a IH]; simpl; [done|]. by rewrite Z.compare_refl. Qed.

Lemma strcmp_eq a b : strcmp a b = Eq ↔ a = b.
Proof.
  split; [|intros ->; apply strcmp_refl].
  revert b. induction a as [|x a IH]; intros [|y b]; simpl; try done.
  destruct (Z.compare_spec (uchar x) (uchar y)) as [E| |]; try done.
  intros H. apply uchar_inj in E. apply IH in H. by subst.
Qed.

Lemma strcmp_antisym a b : strcmp b a = CompOpp (strcmp a b).
Proof.
  revert b. induction a as [|x a IH]; intros [|y b]; simpl; try done.
  rewrite (Z.compare_antisym (uchar x) (uchar y)).
  destruct (uchar x ?= uchar y)%Z; simpl; auto.
Qed.

Lemma strcmp_gt_lt a b : strcmp a b = Gt ↔ strcmp b a = Lt.
Proof. rewrite (strcmp_antisym a b). destruct (strcmp a b); simpl; split; congruence. Qed.

Lemma strcmp_lt_trans a b c : strcmp a b = Lt → strcmp b c = Lt → strcmp a c = Lt.
Proof.
  revert b c. induction a as [|x a IH]; intros [|y b] [|z c]; simpl; try done.
  destruct (Z.compare_spec (uchar x) (uchar y)),
           (Z.compare_spec (uchar y) (uchar z)),
           (Z.compare_spec (uchar x) (uchar z)); try done; try lia.
  apply IH.
Qed.

Lemma strcmp_lt_neq a b : strcmp a b = Lt → a ≠ b.
Proof. intros H ->. by rewrite strcmp_refl in H. Qed.


(** ** Clue ledger *)

Section Ledger.

Implicit Types (t l r : PistaNode) (p q k : string) (c : Z).

Lemma chaves_node l q c r : chaves (PNode l q c r) = chaves l ++ q :: chaves r.
Proof. unfold chaves. simpl. by rewrite fmap_app. Qed.

Lemma elem_chaves_inserir t p k :
  k ∈ chaves (inserirPista t p) ↔ k = p ∨ k ∈ chaves t.
Proof.
  induction t as [|l IHl q c r IHr]; simpl.
  - unfold chaves; simpl. set_solver.
  - destruct (strcmp p q) eqn:E; rewrite !chaves_node.
    + apply strcmp_eq in E as ->. set_solver.
    + rewrite !elem_of_app, !elem_of_cons, IHl. tauto.
    + rewrite !elem_of_app, !elem_of_cons, IHr. tauto.
Qed.

Lemma bst_node l q c r :
  bst (PNode l q c r) ↔
    bst l ∧ bst r ∧ (∀ k, k ∈ chaves l → str_lt k q) ∧ (∀ k, k ∈ chaves r → str_lt q k).
Proof.
  unfold bst. rewrite chaves_node, StronglySorted_app, StronglySorted_cons, Forall_forall.
  split.
  - intros (H & Hl & Hq & Hr). repeat split; auto.
    intros k Hk. apply (H k q); set_solver.
  - intros (Hl & Hr & Hlq & Hqr). repeat split; auto.
    intros x1 x2 H1 [->|H2]%elem_of_cons; auto.
    eapply strcmp_lt_trans; [by apply Hlq | by apply Hqr].
Qed.

Lemma bst_nil : bst PNil.
Proof. constructor. Qed.

Lemma bst_inserir t p : bst t → bst (inserirPista t p).
Proof.
  induction t as [|l IHl q c r IHr]; simpl.
  - intros _. unfold novoNoPista. rewrite bst_node. repeat split; try apply bst_nil.
    all: unfold chaves; simpl; set_solver.
  - destruct (strcmp p q) eqn:E; rewrite !bst_node; intros (Hl & Hr & Hlq & Hqr).
    + auto.
    + repeat split; auto. intros k [->|Hk]%elem_chaves_inserir; auto.
    + repeat split; auto. intros k [->|Hk]%elem_chaves_inserir; auto.
      by apply strcmp_gt_lt.
Qed.

Lemma coletar_snoc t ps p : coletar t (ps ++ [p]) = inserirPista (coletar t ps) p.
Proof. unfold coletar. by rewrite foldl_snoc. Qed.

Lemma bst_coletar t ps : bst t → bst (coletar t ps).
Proof.
  revert t. induction ps as [|p ps IH]; intros t Ht; simpl; [done|].
  apply IH. by apply bst_inserir.
Qed.

Lemma elem_chaves_coletar t ps k :
  k ∈ chaves (coletar t ps) ↔ k ∈ ps ∨ k ∈ chaves t.
Proof.
  revert t. induction ps as [|p ps IH]; intros t; simpl.
  - set_solver.
  - rewrite IH, elem_chaves_inserir. set_solver.
Qed.

Lemma num_nos_forma t : num_nos (forma t) = num_nos t.
Proof. induction t; simpl; lia. Qed.

Lemma elem_exibir_chaves t p c : (p, c) ∈ exibirPistasInOrder t → p ∈ chaves t.
Proof. intros H. unfold chaves. apply list_elem_of_fmap. by exists (p, c). Qed.

(** The same clue over and over: a single node that counts the insertions. *)
Lemma coletar_repetida p (n : nat) :
  Z.of_nat (S n) ≤ INT_MAX →
  coletar PNil (replicate (S n) p) = PNode PNil p (Z.of_nat (S n)) PNil.
Proof.
  induction n as [|n IH]; intros Hn; [done|].
  rewrite replicate_S_end, coletar_snoc, IH by lia. simpl.
  rewrite strcmp_refl. f_equal. rewrite wrap_int_id; [lia|].
  unfold in_int, INT_MIN. lia.
Qed.

(** A clue that is nowhere in the tree gets a node of its own. *)
Lemma inserir_ausente t p :
  p ∉ chaves t →
  num_nos (inserirPista t p) = S (num_nos t)
  ∧ (Forall (fun pc => pc.2 = 1) (exibirPistasInOrder t) →
     Forall (fun pc => pc.2 = 1) (exibirPistasInOrder (inserirPista t p))).
Proof.
  induction t as [|l IHl q c r IHr]; simpl.
  - intros _. split; [done|]. intros _. by repeat constructor.
  - rewrite chaves_node, elem_of_app, elem_of_cons. intros Hp.
    destruct (strcmp p q) eqn:E; simpl.
    + apply strcmp_eq in E. tauto.
    + destruct IHl as [IH1 IH2]; [tauto|]. rewrite IH1. split; [lia|].
      rewrite !Forall_app, !Forall_cons. naive_solver.
    + destruct IHr as [IH1 IH2]; [tauto|]. rewrite IH1. split; [lia|].
      rewrite !Forall_app, !Forall_cons. naive_solver.
Qed.

Lemma coletar_distintas ps :
  NoDup ps →
  num_nos (coletar PNil ps) = length ps
  ∧ Forall (fun pc => pc.2 = 1) (exibirPistasInOrder (coletar PNil ps)).
Proof.
  induction ps as [|p ps IH] using rev_ind; [by split; [|constructor]|].
  rewrite NoDup_app. intros (Hps & Hp & _). destruct (IH Hps) as [IH1 IH2].
  rewrite coletar_snoc, length_app. simpl.
  destruct (inserir_ausente (coletar PNil ps) p) as [H1 H2].
  - rewrite elem_chaves_coletar. unfold chaves; simpl.
    intros [H|H]; [|set_solver]. apply (Hp p H). set_solver.
  - split; [lia | auto].
Qed.

Lemma atualiza_fora p c' (xs : list (string * Z)) :
  (∀ k, k ∈ xs.*1 → k ≠ p) → atualiza p c' <$> xs = xs.
Proof.
  induction xs as [|[k c] xs IH]; intros H; [done|].
  rewrite fmap_cons, IH by set_solver. unfold atualiza; simpl.
  destruct (decide (k = p)) as [->|]; [|done]. exfalso. apply (H p); set_solver.
Qed.

Lemma inserir_presente t p c :
  bst t → (p, c) ∈ exibirPistasInOrder t →
  forma (inserirPista t p) = forma t
  ∧ exibirPistasInOrder (inserirPista t p)
    = atualiza p (wrap_int (c + 1)) <$> exibirPistasInOrder t.
Proof.
  induction t as [|l IHl q c0 r IHr]; simpl.
  - intros _ H. by apply not_elem_of_nil in H.
  - rewrite bst_node. intros (Hl & Hr & Hlq & Hqr) Hin.
    assert (Hnl : strcmp p q ≠ Lt → ∀ k, k ∈ chaves l → k ≠ p).
    { intros Hne k Hk ->. apply Hlq in Hk. by apply Hne. }
    assert (Hnr : strcmp p q ≠ Gt → ∀ k, k ∈ chaves r → k ≠ p).
    { intros Hne k Hk ->. apply Hqr in Hk. by apply Hne, strcmp_gt_lt. }
    apply elem_of_app in Hin as [Hin|Hin].
    { pose proof (Hlq _ (elem_exibir_chaves _ _ _ Hin)) as E. unfold str_lt in E.
      rewrite E. simpl. destruct (IHl Hl Hin) as [-> ->]. split; [done|].
      rewrite fmap_app, fmap_cons.
      rewrite (atualiza_fora _ _ (exibirPistasInOrder r)) by (apply Hnr; congruence).
      do 2 f_equal. unfold atualiza; simpl. destruct (decide (q = p)) as [->|]; [|done].
      by rewrite strcmp_refl in E. }
    apply elem_of_cons in Hin as [Hin|Hin].
    { injection Hin as <- <-. rewrite strcmp_refl. simpl. split; [done|].
      rewrite fmap_app, fmap_cons.
      rewrite (atualiza_fora _ _ (exibirPistasInOrder l))
        by (apply Hnl; rewrite strcmp_refl; congruence).
      rewrite (atualiza_fora _ _ (exibirPistasInOrder r))
        by (apply Hnr; rewrite strcmp_refl; congruence).
      unfold atualiza; simpl. by rewrite decide_True. }
    pose proof (Hqr _ (elem_exibir_chaves _ _ _ Hin)) as E.
    apply strcmp_gt_lt in E. rewrite E. simpl.
    destruct (IHr Hr Hin) as [-> ->]. split; [done|].
    rewrite fmap_app, fmap_cons.
    rewrite (atualiza_fora _ _ (exibirPistasInOrder l)) by (apply Hnl; congruence).
    do 2 f_equal. unfold atualiza; simpl. destruct (decide (q = p)) as [->|]; [|done].
    by rewrite strcmp_refl in E.
Qed.

(** C4. Inserting one clue N times (1 <= N, N within [int]) into an empty
    ledger gives a single node with counter N; inserting pairwise distinct
    clues gives one node per clue, each with counter 1; inserting a clue
    that a search-tree ledger already holds with counter [c] (below
    [INT_MAX]) keeps the shape and the listing, except that the counter of
    that clue becomes [c + 1]. *)
Theorem inserir_conta_e_preserva :
  (∀ p (N : nat), (1 ≤ N)%nat → Z.of_nat N ≤ INT_MAX →
     coletar PNil (replicate N p) = PNode PNil p (Z.of_nat N) PNil
     ∧ num_nos (coletar PNil (replicate N p)) = 1%nat)
  ∧ (∀ ps, NoDup ps →
       num_nos (coletar PNil ps) = length ps
       ∧ Forall (fun pc => pc.2 = 1) (exibirPistasInOrder (coletar PNil ps)))
  ∧ (∀ t p c, bst t → (p, c) ∈ exibirPistasInOrder t → INT_MIN ≤ c < INT_MAX →
       forma (inserirPista t p) = forma t
       ∧ num_nos (inserirPista t p) = num_nos t
       ∧ exibirPistasInOrder (inserirPista t p)
         = atualiza p (c + 1) <$> exibirPistasInOrder t).
Proof.
  split; [|split].
  - intros p [|n] HN Hmax; [lia|]. by rewrite coletar_repetida.
  - apply coletar_distintas.
  - intros t p c Ht Hin Hc. destruct (inserir_presente t p c Ht Hin) as [Hf He].
    rewrite He, wrap_int_id by (unfold in_int; lia). repeat split; [done|].
    rewrite <- (num_nos_forma t), <- Hf. symmetry. apply num_nos_forma.
Qed.

(** C3. Whatever clues are inserted into an empty ledger, in whatever
    order and with whatever repetitions, the in-order traversal lists
    exactly the inserted clues, in strictly ascending [strcmp] order. *)
Theorem inorder_ascendente (ps : list string) :
  StronglySorted (fun a b => strcmp a b = Lt)
    (exibirPistasInOrder (coletar PNil ps)).*1
  ∧ ∀ k, k ∈ (exibirPistasInOrder (coletar PNil ps)).*1 ↔ k ∈ ps.
Proof.
  split.
  - apply (bst_coletar PNil ps bst_nil).
  - intros k. fold (chaves (coletar PNil ps)). rewrite elem_chaves_coletar.
    unfold chaves; simpl. set_solver.
Qed.

End Ledger.

(** ** Association table *)

Section Tabela.

Implicit Types (tab : TabelaHash) (p k v : string).

Lemma balde_lt p : (balde p < Z.to_nat HASH_SIZE)%nat.
Proof.
  unfold balde. apply Z2Nat.inj_lt; unfold HASH_SIZE; try lia.
  all: pose proof (Z.mod_pos_bound (hash_djb2 p) 31); lia.
Qed.

Lemma tabela_vazia_ok : tabela_ok tabela_vazia.
Proof. unfold tabela_ok, tabela_vazia. apply length_replicate. Qed.

Lemma inserirNaHash_ok tab k v : tabela_ok tab → tabela_ok (inserirNaHash tab k v).
Proof. unfold tabela_ok, inserirNaHash. cbv zeta. by rewrite length_insert. Qed.

Lemma encontrar_vazia p : encontrarSuspeito tabela_vazia p = None.
Proof.
  unfold encontrarSuspeito, tabela_vazia.
  by rewrite lookup_replicate_2 by apply balde_lt.
Qed.

(** A lookup after one insertion: the new entry shadows the older ones of
    its clue and no other. *)
Lemma encontrar_inserir tab k v p :
  tabela_ok tab →
  encontrarSuspeito (inserirNaHash tab k v) p
  = if decide (k = p) then Some v else encontrarSuspeito tab p.
Proof.
  intros Hok. unfold encontrarSuspeito, inserirNaHash. cbv zeta.
  destruct (decide (balde k = balde p)) as [Hb|Hb].
  - rewrite Hb, list_lookup_insert_eq by (rewrite Hok; apply balde_lt). simpl.
    destruct (strcmp k p) eqn:E.
    + apply strcmp_eq in E. by rewrite decide_True.
    + rewrite decide_False; [done|]. intros ->. by rewrite strcmp_refl in E.
    + rewrite decide_False; [done|]. intros ->. by rewrite strcmp_refl in E.
  - rewrite list_lookup_insert_ne by done.
    rewrite decide_False; [done|]. by intros ->.
Qed.

Lemma preencher_ok tab ins : tabela_ok tab → tabela_ok (preencher tab ins).
Proof.
  revert tab. induction ins as [|[k v] ins IH]; intros tab Hok; simpl; [done|].
  by apply IH, inserirNaHash_ok.
Qed.

Lemma encontrar_preencher tab ins p :
  tabela_ok tab →
  encontrarSuspeito (preencher tab ins) p
  = mais_recente p (encontrarSuspeito tab p) ins.
Proof.
  revert tab. induction ins as [|[k v] ins IH]; intros tab Hok; simpl; [done|].
  rewrite IH by by apply inserirNaHash_ok. by rewrite encontrar_inserir.
Qed.

Lemma mais_recente_fora p antes (ins : list (string * string)) :
  p ∉ ins.*1 → mais_recente p antes ins = antes.
Proof.
  revert antes. induction ins as [|[k v] ins IH]; intros antes Hp; simpl; [done|].
  rewrite fmap_cons, not_elem_of_cons in Hp. simpl in Hp.
  rewrite decide_False by (intros ->; tauto). apply IH. tauto.
Qed.

(** C5. After any sequence of insertions into the empty table, looking up
    a clue gives the suspect of the last inserted pair with exactly that
    clue, and gives nothing for a clue that was never inserted. *)
Theorem encontrar_ultima_insercao (ins : list (string * string)) (p : string) :
  (∀ pre s post,
     ins = pre ++ (p, s) :: post → p ∉ post.*1 →
     encontrarSuspeito (preencher tabela_vazia ins) p = Some s)
  ∧ (p ∉ ins.*1 → encontrarSuspeito (preencher tabela_vazia ins) p = None).
Proof.
  rewrite encontrar_preencher by apply tabela_vazia_ok. split.
  - intros pre s post -> Hpost. unfold mais_recente.
    rewrite foldl_app. simpl. rewrite decide_True by done.
    by apply mais_recente_fora.
  - intros Hp. rewrite mais_recente_fora by done. apply encontrar_vazia.
Qed.

End Tabela.

(** ** Counting the clues that point to a suspect *)

Section Contagem.

Implicit Types (tab : TabelaHash) (t : PistaNode) (alvo : string).

Lemma soma_que_apontam_app tab alvo xs ys :
  soma_que_apontam tab alvo (xs ++ ys)
  = soma_que_apontam tab alvo xs + soma_que_apontam tab alvo ys.
Proof.
  unfold soma_que_apontam. induction xs as [|x xs IH]; simpl; [done|].
  rewrite IH. lia.
Qed.

Lemma soma_que_apontam_cons tab alvo pc xs :
  soma_que_apontam tab alvo (pc :: xs)
  = (if aponta tab alvo pc.1 then pc.2 else 0) + soma_que_apontam tab alvo xs.
Proof. done. Qed.

(** Without any assumption on the counters, the result is the sum reduced
    to [int]. *)
Lemma contar_wrap tab t alvo :
  contarPistasQueApontam tab t alvo
  = wrap_int (soma_que_apontam tab alvo (exibirPistasInOrder t)).
Proof.
  induction t as [|l IHl q c r IHr]; simpl; [done|].
  rewrite IHl, IHr, soma_que_apontam_app.
  set (A := soma_que_apontam tab alvo (exibirPistasInOrder l)).
  set (B := soma_que_apontam tab alvo (exibirPistasInOrder r)).
  assert (Hsum : ∀ own, wrap_int (wrap_int (own + wrap_int A) + wrap_int B)
                        = wrap_int (own + (A + B))).
  { intros own. rewrite wrap_int_add_r, wrap_int_add_l.
    replace (own + wrap_int A + B) with (own + B + wrap_int A) by lia.
    rewrite wrap_int_add_r. f_equal. lia. }
  rewrite Hsum, soma_que_apontam_cons. fold B. unfold aponta. simpl.
  destruct (encontrarSuspeito tab q) as [sus|] eqn:Es.
  - destruct (strcmp sus alvo) eqn:E.
    + apply strcmp_eq in E as ->. rewrite bool_decide_eq_true_2 by done.
      rewrite wrap_int_add_l. f_equal; lia.
    + rewrite bool_decide_eq_false_2; [f_equal; lia|].
      intros [= ->]. by rewrite strcmp_refl in E.
    + rewrite bool_decide_eq_false_2; [f_equal; lia|].
      intros [= ->]. by rewrite strcmp_refl in E.
  - rewrite bool_decide_eq_false_2 by done. f_equal; lia.
Qed.

(** C1. When the sum is representable as an [int], [contarPistasQueApontam]
    returns the sum, over all nodes of the ledger, of the counters of the
    nodes whose clue the table resolves to exactly the target; nodes whose
    clue has no association, or another suspect, add nothing. *)
Theorem contar_e_a_soma tab t alvo :
  in_int (soma_que_apontam tab alvo (exibirPistasInOrder t)) →
  contarPistasQueApontam tab t alvo
  = soma_que_apontam tab alvo (exibirPistasInOrder t).
Proof. intros H. rewrite contar_wrap. by apply wrap_int_id. Qed.

Lemma contagem_total_app xs ys :
  contagem_total (xs ++ ys) = contagem_total xs + contagem_total ys.
Proof. unfold contagem_total. induction xs as [|x xs IH]; simpl; lia. Qed.

Lemma soma_limites tab alvo (xs : list (string * Z)) :
  Forall (fun pc => 0 ≤ pc.2) xs →
  0 ≤ soma_que_apontam tab alvo xs ≤ contagem_total xs.
Proof.
  induction 1 as [|x xs Hx _ IH]; [done|].
  rewrite soma_que_apontam_cons. unfold contagem_total in *. simpl.
  destruct (aponta tab alvo x.1); lia.
Qed.

Lemma contagem_total_nonneg (xs : list (string * Z)) :
  Forall (fun pc => 1 ≤ pc.2) xs → 0 ≤ contagem_total xs.
Proof. induction 1 as [|x xs Hx _ IH]; unfold contagem_total in *; simpl; lia. Qed.

(** Below [INT_MAX] collected clues, an insertion adds exactly one to the
    sum of the counters and keeps every counter positive. *)
Lemma inserir_total t p :
  Forall (fun pc => 1 ≤ pc.2) (exibirPistasInOrder t) →
  contagem_total (exibirPistasInOrder t) < INT_MAX →
  Forall (fun pc => 1 ≤ pc.2) (exibirPistasInOrder (inserirPista t p))
  ∧ contagem_total (exibirPistasInOrder (inserirPista t p))
    = contagem_total (exibirPistasInOrder t) + 1.
Proof.
  induction t as [|l IHl q c r IHr]; simpl.
  - intros _ _. by repeat constructor.
  - rewrite Forall_app, Forall_cons, contagem_total_app. simpl.
    intros (Hl & Hc & Hr) Hmax.
    pose proof (contagem_total_nonneg _ Hl). pose proof (contagem_total_nonneg _ Hr).
    change (contagem_total ((q, c) :: exibirPistasInOrder r))
      with (c + contagem_total (exibirPistasInOrder r)) in *.
    destruct (strcmp p q); simpl;
      rewrite Forall_app, Forall_cons, contagem_total_app; simpl.
    + rewrite wrap_int_id by (unfold in_int, INT_MIN; lia).
      change (contagem_total ((q, c + 1) :: exibirPistasInOrder r))
        with (c + 1 + contagem_total (exibirPistasInOrder r)).
      repeat split; auto; lia.
    + destruct IHl as [IH1 IH2]; [done|lia|]. rewrite IH2.
      change (contagem_total ((q, c) :: exibirPistasInOrder r))
        with (c + contagem_total (exibirPistasInOrder r)).
      repeat split; auto; lia.
    + destruct IHr as [IH1 IH2]; [done|lia|].
      change (contagem_total ((q, c) :: exibirPistasInOrder (inserirPista r p)))
        with (c + contagem_total (exibirPistasInOrder (inserirPista r p))).
      rewrite IH2. repeat split; auto; lia.
Qed.

Lemma coletar_total (ps : list string) :
  Z.of_nat (length ps) ≤ INT_MAX →
  Forall (fun pc => 1 ≤ pc.2) (exibirPistasInOrder (coletar PNil ps))
  ∧ contagem_total (exibirPistasInOrder (coletar PNil ps)) = Z.of_nat (length ps).
Proof.
  induction ps as [|p ps IH] using rev_ind; [by split; [constructor|]|].
  rewrite length_app, coletar_snoc. simpl. intros Hn.
  destruct IH as [IH1 IH2]; [lia|].
  destruct (inserir_total (coletar PNil ps) p) as [H1 H2]; [done|lia|].
  split; [done|]. rewrite H2, IH2. lia.
Qed.

(** For every ledger the exploration can build with at most [INT_MAX]
    collections, the sum of the matching counters is an [int]. *)
Lemma soma_coletadas_in_int tab alvo (ps : list string) :
  Z.of_nat (length ps) ≤ INT_MAX →
  in_int (soma_que_apontam tab alvo (exibirPistasInOrder (coletar PNil ps))).
Proof.
  intros Hn. destruct (coletar_total ps Hn) as [H1 H2].
  pose proof (soma_limites tab alvo (exibirPistasInOrder (coletar PNil ps))) as H.
  unfold in_int, INT_MIN. rewrite H2 in H.
  assert (0 ≤ soma_que_apontam tab alvo (exibirPistasInOrder (coletar PNil ps))
          ≤ Z.of_nat (length ps)); [|lia].
  apply H. eapply Forall_impl; [exact H1|]. simpl. intros; lia.
Qed.

End Contagem.

(** ** Exploration *)

Section Exploracao.

Implicit Types (st : Estado) (linha : string) (stdin : list string) (a : nat).

Lemma planta_marcar s : planta (marcar_coletada s) = planta s.
Proof. done. Qed.

(** A visit keeps the cursor, the fixed part of every room and every flag
    that is already set. *)
Lemma visitar_inv st st1 out :
  visitar st = Some (st1, out) →
  atual st1 = atual st
  ∧ (∀ a, planta <$> salas st1 !! a = planta <$> salas st !! a)
  ∧ (∀ a, coletada st a = true → coletada st1 a = true).
Proof.
  unfold visitar. destruct (salas st !! atual st) as [s|] eqn:Hs; simpl; [|done].
  destruct (pista s) as [p|]; [destruct (pistaColetada s)|]; simpl;
    intros [= <- <-]; try done.
  simpl. split; [done|]. split; intros a.
  - destruct (decide (a = atual st)) as [->|Hne].
    + by rewrite lookup_insert_eq, Hs.
    + by rewrite lookup_insert_ne.
  - unfold coletada; simpl. destruct (decide (a = atual st)) as [->|Hne].
    + by rewrite lookup_insert_eq.
    + by rewrite lookup_insert_ne.
Qed.

(** A command never writes to the rooms or to the ledger. *)
Lemma comando_inv st linha st2 out k :
  comando st linha = Some (st2, out, k) →
  salas st2 = salas st ∧ rootPistas st2 = rootPistas st.
Proof.
  unfold comando. intros H.
  repeat (case_match; simplify_option_eq); done.
Qed.

Lemma coletada_comando st linha st2 out k a :
  comando st linha = Some (st2, out, k) → coletada st2 a = coletada st a.
Proof. intros [H _]%comando_inv. unfold coletada. by rewrite H. Qed.

Lemma trajetoria_head st stdin : ∃ tl, trajetoria st stdin = st :: tl.
Proof. destruct stdin; simpl; repeat case_match; eauto. Qed.

Lemma trajetoria_mono a stdin st :
  coletada st a = true →
  Forall (fun s => coletada s a = true) (trajetoria st stdin).
Proof.
  revert st. induction stdin as [|linha resto IH]; intros st Hst; simpl.
  - destruct (visitar st) as [[st1 o]|] eqn:Hv; repeat constructor; try done.
    by apply (visitar_inv _ _ _ Hv).
  - destruct (visitar st) as [[st1 o]|] eqn:Hv; [|by repeat constructor].
    assert (H1 : coletada st1 a = true) by by apply (visitar_inv _ _ _ Hv).
    destruct (comando st1 linha) as [[[st2 o2] k]|] eqn:Hc; [|by repeat constructor].
    assert (H2 : coletada st2 a = true) by by rewrite (coletada_comando _ _ _ _ _ _ Hc).
    destruct k; repeat constructor; auto.
Qed.

Lemma transicoes_cons a st st' (tr : list Estado) :
  transicoes a (st :: st' :: tr)
  = ((if negb (coletada st a) && coletada st' a then 1 else 0)
     + transicoes a (st' :: tr))%nat.
Proof. done. Qed.

Lemma transicoes_zero a (tr : list Estado) :
  Forall (fun s => coletada s a = true) tr → transicoes a tr = O.
Proof.
  induction tr as [|s tr IH]; [done|]. intros [Hs Htr]%Forall_cons.
  destruct tr as [|s' tr]; [done|].
  rewrite transicoes_cons, IH by done. by rewrite Hs.
Qed.

Lemma transicoes_le a stdin st : (transicoes a (trajetoria st stdin) ≤ 1)%nat.
Proof.
  revert st. induction stdin as [|linha resto IH]; intros st; simpl.
  - destruct (visitar st) as [[st1 o]|]; simpl; [|lia]. case_match; lia.
  - destruct (visitar st) as [[st1 o]|] eqn:Hv; simpl; [|lia].
    destruct (comando st1 linha) as [[[st2 o2] k]|] eqn:Hc; [|simpl; case_match; lia].
    pose proof (coletada_comando _ _ _ _ _ a Hc) as E12.
    assert (Hmid : (negb (coletada st1 a) && coletada st2 a) = false).
    { rewrite E12. by destruct (coletada st1 a). }
    destruct k.
    + destruct (trajetoria_head st2 resto) as [tl Htl].
      specialize (IH st2). rewrite Htl in *. rewrite !transicoes_cons, Hmid.
      destruct (negb (coletada st a) && coletada st1 a) eqn:E01; [|lia].
      apply andb_true_iff in E01 as [_ E1].
      pose proof (trajetoria_mono a resto st2) as Hm. rewrite E12, Htl in Hm.
      rewrite (transicoes_zero a (st2 :: tl)) by auto. lia.
    + rewrite !transicoes_cons, Hmid. simpl. case_match; lia.
Qed.

Lemma limpezas_cons a st st' (tr : list Estado) :
  (coletada st a = true → coletada st' a = true) →
  limpezas a (st :: st' :: tr) = limpezas a (st' :: tr).
Proof.
  intros H. change (limpezas a (st :: st' :: tr))
    with ((if coletada st a && negb (coletada st' a) then 1 else 0)
          + limpezas a (st' :: tr))%nat.
  destruct (coletada st a); [rewrite H by done|]; done.
Qed.

Lemma limpezas_zero a stdin st : limpezas a (trajetoria st stdin) = O.
Proof.
  revert st. induction stdin as [|linha resto IH]; intros st; simpl.
  - destruct (visitar st) as [[st1 o]|] eqn:Hv; [|done].
    by rewrite limpezas_cons by apply (visitar_inv _ _ _ Hv).
  - destruct (visitar st) as [[st1 o]|] eqn:Hv; [|done].
    destruct (comando st1 linha) as [[[st2 o2] k]|] eqn:Hc.
    + pose proof (coletada_comando _ _ _ _ _ a Hc) as E12.
      destruct k.
      * destruct (trajetoria_head st2 resto) as [tl Htl].
        specialize (IH st2). rewrite Htl in *.
        rewrite limpezas_cons by apply (visitar_inv _ _ _ Hv).
        rewrite limpezas_cons by (by rewrite E12). done.
      * rewrite limpezas_cons by apply (visitar_inv _ _ _ Hv).
        by rewrite limpezas_cons by (by rewrite E12).
    + by rewrite limpezas_cons by apply (visitar_inv _ _ _ Hv).
Qed.

Lemma planta_trajetoria stdin st st' a :
  st' ∈ trajetoria st stdin →
  planta <$> salas st' !! a = planta <$> salas st !! a.
Proof.
  revert st. induction stdin as [|linha resto IH]; intros st; simpl.
  - destruct (visitar st) as [[st1 o]|] eqn:Hv.
    + intros [->|[->|?%not_elem_of_nil]%elem_of_cons]%elem_of_cons; try done.
      by apply (visitar_inv _ _ _ Hv).
    + by intros [->|?%not_elem_of_nil]%elem_of_cons.
  - destruct (visitar st) as [[st1 o]|] eqn:Hv;
      [|by intros [->|?%not_elem_of_nil]%elem_of_cons].
    assert (H1 : planta <$> salas st1 !! a = planta <$> salas st !! a)
      by by apply (visitar_inv _ _ _ Hv).
    destruct (comando st1 linha) as [[[st2 o2] k]|] eqn:Hc.
    + assert (H2 : planta <$> salas st2 !! a = planta <$> salas st !! a).
      { apply comando_inv in Hc as [-> _]. done. }
      destruct k.
      * intros [->|[->|Hin]%elem_of_cons]%elem_of_cons; try done.
        by rewrite (IH _ Hin).
      * intros [->|[->|[->|?%not_elem_of_nil]%elem_of_cons]%elem_of_cons]%elem_of_cons;
          done.
    + intros [->|[->|?%not_elem_of_nil]%elem_of_cons]%elem_of_cons; done.
Qed.

Lemma filho_valido_insert (m : gmap nat Sala) a s f :
  filho_valido m f → filho_valido (<[a := s]> m) f.
Proof.
  destruct f as [b|]; simpl; [|done]. intros H.
  apply lookup_insert_is_Some'. by right.
Qed.

Lemma fechado_marcar (m : gmap nat Sala) a s :
  fechado m → m !! a = Some s → fechado (<[a := marcar_coletada s]> m).
Proof.
  intros Hf Hs a' s' H.
  assert (Hch : ∃ s0, m !! a' = Some s0 ∧ esq s' = esq s0 ∧ dir s' = dir s0).
  { destruct (decide (a' = a)) as [->|Hne].
    - rewrite lookup_insert_eq in H. injection H as <-. by exists s.
    - rewrite lookup_insert_ne in H by done. by exists s'. }
  destruct Hch as (s0 & Hs0 & -> & ->). destruct (Hf _ _ Hs0) as [He Hd].
  split; by apply filho_valido_insert.
Qed.

Lemma visitar_total st :
  bem_formado st → ∃ st1 out, visitar st = Some (st1, out) ∧ bem_formado st1.
Proof.
  intros [Hf [s Hs]]. unfold visitar. rewrite Hs. simpl.
  destruct (pista s) as [p|]; [destruct (pistaColetada s)|]; simpl;
    eexists _, _; (split; [done|]); try (split; [done | by exists s]).
  split; simpl; [by apply fechado_marcar|]. rewrite lookup_insert_eq. eauto.
Qed.

Lemma comando_total st linha :
  bem_formado st →
  ∃ st2 out k, comando st linha = Some (st2, out, k) ∧ bem_formado st2.
Proof.
  intros [Hf [s Hs]]. assert (Hst : bem_formado st) by (split; eauto).
  destruct (Hf _ _ Hs) as [He Hd].
  unfold comando. rewrite Hs. simpl.
  repeat case_match; eexists _, _, _; (split; [done|]); try done.
  all: split; simpl; auto.
Qed.

Lemma explorar_loop_total stdin st :
  bem_formado st →
  ∃ st' resto out,
    explorar_loop st stdin = Some (st', resto, out)
    ∧ last (trajetoria st stdin) = Some st'.
Proof.
  revert st. induction stdin as [|linha resto IH]; intros st Hst; simpl;
    destruct (visitar_total st Hst) as (st1 & o1 & -> & H1); simpl.
  - by eexists _, _, _.
  - destruct (comando_total st1 linha H1) as (st2 & o2 & k & -> & H2); simpl.
    destruct k; [|by eexists _, _, _].
    destruct (IH st2 H2) as (st3 & r3 & o3 & -> & Hl); simpl.
    eexists _, _, _. split; [done|].
    destruct (trajetoria_head st2 resto) as [tl Htl]. rewrite Htl in *.
    by rewrite !last_cons_cons.
Qed.

(** C7. Along every run of the exploration loop, from any state and on
    any input: the flag of each room goes from unset to set at most once
    and is never cleared once set; the clue of each room stays what it was;
    visiting a room whose clue is already collected changes neither the
    rooms nor the ledger, so no counter moves.  On a well-formed store the
    loop does return, in the last state of the run.  Visiting a room whose
    clue is not collected yet announces the clue, inserts it into the
    ledger and sets the flag of the room, so that visiting the room again
    announces nothing and changes nothing; in general a visit right after a
    visit, which is how the loop re-enters a room, finds no clue and
    returns the state it got. *)
Theorem pista_coletada_uma_vez st stdin :
  (∀ a, (transicoes a (trajetoria st stdin) ≤ 1)%nat
        ∧ limpezas a (trajetoria st stdin) = O)
  ∧ (∀ a, coletada st a = true →
          Forall (fun st' => coletada st' a = true) (trajetoria st stdin))
  ∧ (∀ a st', st' ∈ trajetoria st stdin →
              pista <$> salas st' !! a = pista <$> salas st !! a)
  ∧ (∀ s p, salas st !! atual st = Some s → pista s = Some p →
            pistaColetada s = true →
            ∃ out, visitar st = Some (st, out)
                   ∧ ∀ q, MPistaEncontrada q ∉ out)
  ∧ (bem_formado st →
     ∃ st' resto out,
       explorar_loop st stdin = Some (st', resto, out)
       ∧ last (trajetoria st stdin) = Some st')
  ∧ (∀ s p, salas st !! atual st = Some s → pista s = Some p →
            pistaColetada s = false →
            ∃ st1, visitar st = Some (st1, [MSala (nome s); MPistaEncontrada p])
                   ∧ atual st1 = atual st
                   ∧ coletada st1 (atual st) = true
                   ∧ rootPistas st1 = inserirPista (rootPistas st) p
                   ∧ visitar st1 = Some (st1, [MSala (nome s); MJaColetada]))
  ∧ (∀ st1 out, visitar st = Some (st1, out) →
                ∃ out', visitar st1 = Some (st1, out')
                        ∧ ∀ q, MPistaEncontrada q ∉ out').
Proof.
  assert (Hnovo : ∀ s p, salas st !! atual st = Some s → pista s = Some p →
            pistaColetada s = false →
            ∃ st1, visitar st = Some (st1, [MSala (nome s); MPistaEncontrada p])
                   ∧ atual st1 = atual st
                   ∧ coletada st1 (atual st) = true
                   ∧ rootPistas st1 = inserirPista (rootPistas st) p
                   ∧ visitar st1 = Some (st1, [MSala (nome s); MJaColetada])).
  { intros s p Hs Hp Hc. unfold visitar at 1. rewrite Hs. simpl. rewrite Hp, Hc. simpl.
    eexists. split; [done|]. split; [done|]. split; [|split; [done|]].
    - unfold coletada. simpl. by rewrite lookup_insert_eq.
    - unfold visitar. simpl. rewrite lookup_insert_eq. simpl. by rewrite Hp. }
  assert (Hja : ∀ s p, salas st !! atual st = Some s → pista s = Some p →
            pistaColetada s = true →
            visitar st = Some (st, [MSala (nome s); MJaColetada])).
  { intros s p Hs Hp Hc. unfold visitar. rewrite Hs. simpl. by rewrite Hp, Hc. }
  assert (Hsem : ∀ x y : Msg, (∀ q, x ≠ MPistaEncontrada q) → (∀ q, y ≠ MPistaEncontrada q) →
            ∀ q, MPistaEncontrada q ∉ [x; y]).
  { intros x y Hx Hy q. rewrite !elem_of_cons.
    intros [E|[E|?%not_elem_of_nil]]; [by apply (Hx q) | by apply (Hy q) | done]. }
  split; [|split; [|split; [|split; [|split; [|split]]]]].
  - intros a. split; [apply transicoes_le | apply limpezas_zero].
  - intros a. apply trajetoria_mono.
  - intros a st' Hin. pose proof (planta_trajetoria stdin st st' a Hin) as H.
    destruct (salas st' !! a) as [s'|], (salas st !! a) as [s0|]; simpl in *; try done.
    unfold planta in H. injection H as _ Hp _ _. by rewrite Hp.
  - intros s p Hs Hp Hc. rewrite (Hja s p Hs Hp Hc).
    eexists. split; [done|]. by apply Hsem.
  - apply explorar_loop_total.
  - exact Hnovo.
  - intros st1 out Hv.
    destruct (salas st !! atual st) as [s|] eqn:Hs;
      [|by unfold visitar in Hv; rewrite Hs in Hv].
    destruct (pista s) as [p|] eqn:Hp; [destruct (pistaColetada s) eqn:Hc|].
    + rewrite (Hja s p eq_refl Hp Hc) in Hv. injection Hv as <- <-.
      rewrite (Hja s p eq_refl Hp Hc). eexists. split; [done|]. by apply Hsem.
    + destruct (Hnovo s p eq_refl Hp Hc) as (st1' & E & _ & _ & _ & Hre).
      rewrite E in Hv. injection Hv as <- <-.
      rewrite Hre. eexists. split; [done|]. by apply Hsem.
    + assert (E : visitar st = Some (st, [MSala (nome s); MNenhumaPista])).
      { unfold visitar. rewrite Hs. simpl. by rewrite Hp. }
      rewrite E in Hv. injection Hv as <- <-.
      rewrite E. eexists. split; [done|]. by apply Hsem.
Qed.

Lemma trim_nl_cons c r : c ≠ newline → ∃ r', trim_nl (String c r) = String c r'.
Proof.
  intros Hc. destruct r; simpl; [|eauto].
  apply Ascii.eqb_neq in Hc. rewrite Hc. eauto.
Qed.

Lemma comando_s st linha c r :
  trim_nl linha = String c r → lower_char c = cmd_s →
  comando st linha = Some (st, [MEncerrar], Para).
Proof. unfold comando. by intros -> ->. Qed.

Lemma comando_e st linha c r :
  trim_nl linha = String c r → lower_char c = cmd_e →
  comando st linha
  = (s ← salas st !! atual st;
     match esq s with
     | Some l => Some (mkEstado (salas st) l (rootPistas st), [], Continua)
     | None => Some (st, [MSemEsquerda], Continua)
     end).
Proof. unfold comando. by intros -> ->. Qed.

Lemma comando_d st linha c r :
  trim_nl linha = String c r → lower_char c = cmd_d →
  comando st linha
  = (s ← salas st !! atual st;
     match dir s with
     | Some l => Some (mkEstado (salas st) l (rootPistas st), [], Continua)
     | None => Some (st, [MSemDireita], Continua)
     end).
Proof. unfold comando. by intros -> ->. Qed.

Lemma comando_invalido st linha c r :
  trim_nl linha = String c r →
  lower_char c ≠ cmd_s → lower_char c ≠ cmd_e → lower_char c ≠ cmd_d →
  comando st linha = Some (st, [MInvalido], Continua).
Proof.
  unfold comando. intros -> Hs He Hd.
  apply Ascii.eqb_neq in Hs, He, Hd. by rewrite Hs, He, Hd.
Qed.

Lemma comando_primeiro st linha linha' c r r' :
  trim_nl linha = String c r → trim_nl linha' = String c r' →
  comando st linha' = comando st linha.
Proof. unfold comando. by intros -> ->. Qed.

(** C8. A left (right) command in a room without a left (right) child
    reports the missing path and returns the very state it got: same
    room, same store of rooms, same ledger.  A line that is not empty
    after [trim_nl] and whose first byte is none of e/d/s in either case
    reports an invalid command and likewise returns the state it got.  A
    line that is empty after [trim_nl] reports nothing and returns the
    state it got. *)
Theorem comando_sem_efeito st linha :
  (trim_nl linha = EmptyString → comando st linha = Some (st, [], Continua))
  ∧ (∀ c r s, trim_nl linha = String c r → salas st !! atual st = Some s →
       (lower_char c = cmd_e → esq s = None →
          comando st linha = Some (st, [MSemEsquerda], Continua))
       ∧ (lower_char c = cmd_d → dir s = None →
          comando st linha = Some (st, [MSemDireita], Continua)))
  ∧ (∀ c r, trim_nl linha = String c r →
       lower_char c ≠ cmd_s → lower_char c ≠ cmd_e → lower_char c ≠ cmd_d →
       comando st linha = Some (st, [MInvalido], Continua)).
Proof.
  split; [|split].
  - unfold comando. by intros ->.
  - intros c r s Ht Hs. split; intros Hc Hn.
    + rewrite (comando_e _ _ _ _ Ht Hc), Hs. simpl. by rewrite Hn.
    + rewrite (comando_d _ _ _ _ Ht Hc), Hs. simpl. by rewrite Hn.
  - intros c r. apply comando_invalido.
Qed.

(** The bytes that [tolower] sends to s, e and d are those letters in
    lower and in upper case and no other. *)
Lemma lower_char_letras c :
  (lower_char c = cmd_s ↔ c = chr 115 ∨ c = chr 83)
  ∧ (lower_char c = cmd_e ↔ c = chr 101 ∨ c = chr 69)
  ∧ (lower_char c = cmd_d ↔ c = chr 100 ∨ c = chr 68).
Proof.
  destruct c as [[] [] [] [] [] [] [] []]; vm_compute;
    (split; [|split]);
    (split; [intros H; first [discriminate H | by left | by right]
            | intros [H|H]; first [discriminate H | reflexivity]]).
Qed.

(** C10. The command is decided by the first byte of the trimmed line
    alone: two lines with the same first byte are handled alike; a first
    byte that lowercases to s ends the loop, to e tries the left child, to
    d tries the right child, whatever follows it.  The bytes that lowercase
    to s, e and d are s and S, e and E, d and D, and no others. *)
Theorem comando_so_primeiro_byte st linha c r :
  trim_nl linha = String c r →
  (∀ linha' r', trim_nl linha' = String c r' → comando st linha' = comando st linha)
  ∧ (lower_char c = cmd_s → comando st linha = Some (st, [MEncerrar], Para))
  ∧ (lower_char c = cmd_e →
     comando st linha
     = (s ← salas st !! atual st;
        match esq s with
        | Some l => Some (mkEstado (salas st) l (rootPistas st), [], Continua)
        | None => Some (st, [MSemEsquerda], Continua)
        end))
  ∧ (lower_char c = cmd_d →
     comando st linha
     = (s ← salas st !! atual st;
        match dir s with
        | Some l => Some (mkEstado (salas st) l (rootPistas st), [], Continua)
        | None => Some (st, [MSemDireita], Continua)
        end))
  ∧ (lower_char c = cmd_s ↔ c = chr 115 ∨ c = chr 83)
  ∧ (lower_char c = cmd_e ↔ c = chr 101 ∨ c = chr 69)
  ∧ (lower_char c = cmd_d ↔ c = chr 100 ∨ c = chr 68)
  ∧ (c = chr 115 ∨ c = chr 83 → comando st linha = Some (st, [MEncerrar], Para))
  ∧ (c = chr 101 ∨ c = chr 69 →
     comando st linha
     = (s ← salas st !! atual st;
        match esq s with
        | Some l => Some (mkEstado (salas st) l (rootPistas st), [], Continua)
        | None => Some (st, [MSemEsquerda], Continua)
        end))
  ∧ (c = chr 100 ∨ c = chr 68 →
     comando st linha
     = (s ← salas st !! atual st;
        match dir s with
        | Some l => Some (mkEstado (salas st) l (rootPistas st), [], Continua)
        | None => Some (st, [MSemDireita], Continua)
        end)).
Proof.
  intros Ht. destruct (lower_char_letras c) as (Ls & Le & Ld).
  split; [|split; [|split; [|split; [|split; [|split; [|split; [|split; [|split]]]]]]]];
    try done.
  - intros linha' r' Ht'. by apply (comando_primeiro _ _ _ _ _ _ Ht Ht').
  - by apply comando_s with r.
  - by apply comando_e with r.
  - by apply comando_d with r.
  - intros H. apply (comando_s _ _ _ _ Ht). by apply Ls.
  - intros H. apply (comando_e _ _ _ _ Ht). by apply Le.
  - intros H. apply (comando_d _ _ _ _ Ht). by apply Ld.
Qed.

Lemma lower_char_comando c :
  lower_char c = cmd_s ∨ lower_char c = cmd_e ∨ lower_char c = cmd_d →
  c ≠ newline ∧ lower_char (lower_char c) = lower_char c.
Proof.
  intros H. split.
  - intros ->. destruct H as [H|[H|H]]; by vm_compute in H.
  - destruct H as [H|[H|H]]; by rewrite H.
Qed.

(** C9, as the code has it. Lines are read by their first byte, in
    either case, and nothing after the first byte matters (a trailing
    newline, trailing blanks, more letters).  Nothing is stripped in front:
    a line that starts with a blank is an invalid command. *)
Theorem comando_sem_aparar_espacos st c r :
  (lower_char c = cmd_s ∨ lower_char c = cmd_e ∨ lower_char c = cmd_d →
   comando st (String c r) = comando st (String (lower_char c) EmptyString))
  ∧ (eh_espaco c = true → c ≠ newline →
     comando st (String c r) = Some (st, [MInvalido], Continua))
  ∧ lower_char (chr 83) = cmd_s ∧ lower_char (chr 69) = cmd_e
  ∧ lower_char (chr 68) = cmd_d.
Proof.
  split; [|split; [|done]].
  - intros H. destruct (lower_char_comando c H) as [Hc Hl].
    destruct (trim_nl_cons c r Hc) as [r' Hr].
    unfold comando. rewrite Hr. simpl.
    replace (Ascii.eqb (lower_char c) newline) with false; [by rewrite Hl|].
    destruct H as [H|[H|H]]; by rewrite H.
  - intros Hsp Hc. destruct (trim_nl_cons c r Hc) as [r' Hr].
    apply bool_decide_eq_true_1 in Hsp.
    assert (Hlow : lower_char c = c).
    { unfold lower_char, tolower.
      replace ((65 <=? uchar c) && (uchar c <=? 90)) with false.
      - unfold uchar. by rewrite N2Z.id, ascii_N_embedding.
      - symmetry. apply andb_false_iff. left. apply Z.leb_gt. lia. }
    apply (comando_invalido _ _ _ _ Hr); rewrite Hlow; intros ->;
      vm_compute in Hsp; destruct Hsp as [?|[? ?]]; done.
Qed.

End Exploracao.

(** ** Accusation *)

Section Acusacao.

Implicit Types (tab : TabelaHash) (root : PistaNode) (lido : option string).

(** C2. When the trimmed accusation is not empty, the accusation phase
    reports the accused, the total computed by [contarPistasQueApontam]
    and one verdict: sustained exactly when the total is at least 2, weak
    exactly when it is below 2; so 2 is sustained and 0 and 1 are weak. *)
Theorem veredito_limiar_dois tab root lido :
  trim_nl (default EmptyString lido) ≠ EmptyString →
  let acusado := trim_nl (default EmptyString lido) in
  let total := contarPistasQueApontam tab root acusado in
  ∃ v, fase_acusacao tab root lido
       = [MPedeAcusado; MAcusou acusado; MNumero acusado total; v]
     ∧ (v = MSustentada ↔ 2 ≤ total)
     ∧ (v = MFraca ↔ total < 2)
     ∧ (total = 2 → v = MSustentada)
     ∧ (total = 0 ∨ total = 1 → v = MFraca).
Proof.
  intros Hne acusado total. unfold fase_acusacao, acusar. fold acusado.
  destruct acusado as [|c r] eqn:E; [done|]. fold total.
  destruct (Z.leb_spec 2 total) as [H|H]; eexists; (split; [done|]).
  - repeat split; try done; lia.
  - repeat split; try done; lia.
Qed.

(** C6. When the accusation is empty (nothing read, an empty line, or a
    lone newline) the accusation phase reports that no name was given and nothing
    else: whatever the evaluation function, it is not consulted, and no
    total and no verdict is reported. *)
Theorem acusacao_vazia_nao_avalia lido :
  trim_nl (default EmptyString lido) = EmptyString →
  (∀ avaliar, acusar avaliar lido = [MPedeAcusado; MSemAcusacao])
  ∧ (∀ tab root,
       fase_acusacao tab root lido = [MPedeAcusado; MSemAcusacao]
       ∧ (MFraca ∉ fase_acusacao tab root lido)
       ∧ (MSustentada ∉ fase_acusacao tab root lido)
       ∧ (∀ a n, MNumero a n ∉ fase_acusacao tab root lido)).
Proof.
  intros He.
  assert (H : ∀ avaliar, acusar avaliar lido = [MPedeAcusado; MSemAcusacao]).
  { intros avaliar. unfold acusar. by rewrite He. }
  split; [done|]. intros tab root. unfold fase_acusacao. rewrite H.
  repeat split; try intros a n; rewrite !elem_of_cons;
    intros [?|[?|?%not_elem_of_nil]]; done.
Qed.

End Acusacao.

(** ** Worked runs *)

Section Exemplos.

Example ledger_ex_linhas :
  exibirPistasInOrder ledger_ex = [("A", 2); ("B", 1); ("C", 1)].
Proof. reflexivity. Qed.

Lemma contar_e_a_soma_witness :
  in_int (soma_que_apontam tabela_ex "X" (exibirPistasInOrder ledger_ex))
  ∧ contarPistasQueApontam tabela_ex ledger_ex "X" = 3.
Proof.
  assert (H : in_int (soma_que_apontam tabela_ex "X" (exibirPistasInOrder ledger_ex)))
    by (vm_compute; split; discriminate).
  split; [exact H|]. rewrite (contar_e_a_soma _ _ _ H). reflexivity.
Defined.

Example contar_ex_X : contarPistasQueApontam tabela_ex ledger_ex "X" = 3.
Proof. reflexivity. Qed.

Example contar_ex_Z : contarPistasQueApontam tabela_ex ledger_ex "Z" = 0.
Proof. reflexivity. Qed.

Lemma veredito_limiar_dois_witness :
  trim_nl (default EmptyString (Some ("X" +:+ nl))) ≠ EmptyString
  ∧ ∃ v, fase_acusacao tabela_ex ledger_ex (Some ("X" +:+ nl))
         = [MPedeAcusado; MAcusou "X"; MNumero "X" 3; v]
       ∧ (v = MSustentada ↔ 2 ≤ 3).
Proof.
  assert (H : trim_nl (default EmptyString (Some ("X" +:+ nl))) ≠ EmptyString)
    by (vm_compute; discriminate).
  split; [exact H|].
  destruct (veredito_limiar_dois tabela_ex ledger_ex (Some ("X" +:+ nl)) H)
    as (v & Hv & Hs & _).
  exists v. split; [exact Hv | exact Hs].
Defined.

Example veredito_total_2 :
  fase_acusacao tabela_ex (coletar PNil ["A"; "A"]) (Some ("X" +:+ nl))
  = [MPedeAcusado; MAcusou "X"; MNumero "X" 2; MSustentada].
Proof. reflexivity. Qed.

Example veredito_total_1 :
  fase_acusacao tabela_ex ledger_ex (Some ("Y" +:+ nl))
  = [MPedeAcusado; MAcusou "Y"; MNumero "Y" 1; MFraca].
Proof. reflexivity. Qed.

Lemma inserir_conta_e_preserva_witness :
  coletar PNil (replicate 3 "tea") = PNode PNil "tea" 3 PNil
  ∧ num_nos (coletar PNil ["tea"; "glove"]) = 2%nat
  ∧ exibirPistasInOrder (inserirPista (coletar PNil ["tea"; "glove"]) "tea")
    = [("glove", 1); ("tea", 2)].
Proof.
  destruct inserir_conta_e_preserva as (Ha & Hb & Hc).
  split; [|split].
  - apply (Ha "tea" 3%nat); [lia | by vm_compute].
  - apply (Hb ["tea"; "glove"]).
    apply (bool_decide_unpack _). by vm_compute.
  - apply (Hc (coletar PNil ["tea"; "glove"]) "tea" 1).
    + apply bst_coletar, bst_nil.
    + vm_compute. apply list_elem_of_further, list_elem_of_here.
    + by vm_compute.
Defined.

Lemma encontrar_ultima_insercao_witness :
  encontrarSuspeito
    (preencher tabela_vazia [("glove", "Smith"); ("tea", "Jones"); ("glove", "Brown")])
    "glove" = Some "Brown"
  ∧ encontrarSuspeito
      (preencher tabela_vazia [("glove", "Smith"); ("tea", "Jones")]) "knife" = None.
Proof.
  split.
  - apply (proj1 (encontrar_ultima_insercao _ "glove")
             [("glove", "Smith"); ("tea", "Jones")] "Brown" []); [reflexivity|].
    apply not_elem_of_nil.
  - apply (proj2 (encontrar_ultima_insercao _ "knife")).
    apply (bool_decide_unpack _). by vm_compute.
Defined.

Lemma acusacao_vazia_nao_avalia_witness :
  trim_nl (default EmptyString (Some nl)) = EmptyString
  ∧ fase_acusacao tabela_ex ledger_ex (Some nl) = [MPedeAcusado; MSemAcusacao].
Proof.
  assert (H : trim_nl (default EmptyString (Some nl)) = EmptyString) by reflexivity.
  split; [exact H|].
  apply (proj2 (acusacao_vazia_nao_avalia (Some nl) H) tabela_ex ledger_ex).
Defined.

Example acusacao_fim_de_entrada :
  fase_acusacao tabela_ex ledger_ex None = [MPedeAcusado; MSemAcusacao].
Proof. reflexivity. Qed.

End Exemplos.

(** ** Runs of the exploration and of [main] *)

Section Execucoes.

Lemma estado_inicial_bem_formado : bem_formado estado_inicial.
Proof.
  split.
  - apply (bool_decide_unpack _). by vm_compute.
  - apply (bool_decide_unpack _). by vm_compute.
Qed.

Example main_cenario :
  main ["e" +:+ nl; "e" +:+ nl; "s" +:+ nl; "Sr. Almeida" +:+ nl]
  = Some [MTitulo; MComeco;
          MSala "Hall de Entrada"; MNenhumaPista; MOpcoes;
          MSala "Biblioteca"; MPistaEncontrada "Marca de luva com poeira"; MOpcoes;
          MSala "Cozinha"; MPistaEncontrada "resto de chá de ervas"; MOpcoes;
          MEncerrar; MCabecalhoPistas;
          MPista "Marca de luva com poeira" 1; MPista "resto de chá de ervas" 1;
          MPedeAcusado; MAcusou "Sr. Almeida"; MNumero "Sr. Almeida" 1; MFraca;
          MFim].
Proof. vm_compute. reflexivity. Qed.

Lemma pista_coletada_uma_vez_witness :
  (transicoes cozinha
     (trajetoria estado_biblioteca ["x" +:+ nl; "e" +:+ nl; "s" +:+ nl]) ≤ 1)%nat
  ∧ (∃ out, visitar estado_biblioteca = Some (estado_biblioteca, out)
            ∧ ∀ q, MPistaEncontrada q ∉ out)
  ∧ (∃ st' resto out,
       explorar_loop estado_biblioteca ["x" +:+ nl; "e" +:+ nl; "s" +:+ nl]
       = Some (st', resto, out)
       ∧ last (trajetoria estado_biblioteca ["x" +:+ nl; "e" +:+ nl; "s" +:+ nl])
         = Some st')
  ∧ (∃ st1,
       visitar (mkEstado mansao biblioteca PNil)
       = Some (st1, [MSala "Biblioteca"; MPistaEncontrada "Marca de luva com poeira"])
       ∧ atual st1 = biblioteca
       ∧ coletada st1 biblioteca = true
       ∧ rootPistas st1 = inserirPista PNil "Marca de luva com poeira"
       ∧ visitar st1 = Some (st1, [MSala "Biblioteca"; MJaColetada])).
Proof.
  destruct (pista_coletada_uma_vez estado_biblioteca
              ["x" +:+ nl; "e" +:+ nl; "s" +:+ nl]) as (H1 & _ & _ & H4 & H5 & _).
  split; [apply (H1 cozinha)|]. split; [|split].
  - apply (H4 (mkSala "Biblioteca" (Some "Marca de luva com poeira") true
                      (Some cozinha) (Some jardim))
              "Marca de luva com poeira").
    + by vm_compute.
    + reflexivity.
    + reflexivity.
  - apply H5. split.
    + apply (bool_decide_unpack _). by vm_compute.
    + apply (bool_decide_unpack _). by vm_compute.
  - destruct (pista_coletada_uma_vez (mkEstado mansao biblioteca PNil) [])
      as (_ & _ & _ & _ & _ & H6 & _).
    apply (H6 (mkSala "Biblioteca" (Some "Marca de luva com poeira") false
                      (Some cozinha) (Some jardim))
              "Marca de luva com poeira").
    + by vm_compute.
    + reflexivity.
    + reflexivity.
Defined.

(** In that run the flag of the kitchen is set once, the invalid command
    re-enters the library without touching the ledger, and the ledger ends
    with each clue counted once. *)
Example execucao_biblioteca :
  transicoes cozinha
    (trajetoria estado_biblioteca ["x" +:+ nl; "e" +:+ nl; "s" +:+ nl]) = 1%nat
  ∧ (explorar_loop estado_biblioteca ["x" +:+ nl; "e" +:+ nl; "s" +:+ nl]
     ≫= fun r => Some (exibirPistasInOrder (rootPistas r.1.1), r.2))
    = Some ([("Marca de luva com poeira", 1); ("resto de chá de ervas", 1)],
            [MSala "Biblioteca"; MJaColetada; MOpcoes; MInvalido;
             MSala "Biblioteca"; MJaColetada; MOpcoes;
             MSala "Cozinha"; MPistaEncontrada "resto de chá de ervas"; MOpcoes;
             MEncerrar]).
Proof. split; vm_compute; reflexivity. Qed.

Lemma comando_sem_efeito_witness :
  comando estado_cozinha ("e" +:+ nl) = Some (estado_cozinha, [MSemEsquerda], Continua)
  ∧ comando estado_cozinha ("D" +:+ nl) = Some (estado_cozinha, [MSemDireita], Continua)
  ∧ comando estado_cozinha ("x" +:+ nl) = Some (estado_cozinha, [MInvalido], Continua)
  ∧ comando estado_cozinha nl = Some (estado_cozinha, [], Continua).
Proof.
  pose (s := mkSala "Cozinha" (Some "resto de chá de ervas") false None None).
  assert (Hs : salas estado_cozinha !! atual estado_cozinha = Some s) by by vm_compute.
  split; [|split; [|split]].
  - destruct (comando_sem_efeito estado_cozinha ("e" +:+ nl)) as (_ & H & _).
    apply (H "e"%char EmptyString s); [reflexivity | exact Hs | reflexivity | reflexivity].
  - destruct (comando_sem_efeito estado_cozinha ("D" +:+ nl)) as (_ & H & _).
    apply (H "D"%char EmptyString s); [reflexivity | exact Hs | reflexivity | reflexivity].
  - destruct (comando_sem_efeito estado_cozinha ("x" +:+ nl)) as (_ & _ & H).
    apply (H "x"%char EmptyString); [reflexivity | by vm_compute ..].
  - destruct (comando_sem_efeito estado_cozinha nl) as (H & _).
    apply H. reflexivity.
Defined.

(** C8 as stated fails on the empty line: it is no left, right or exit
    command, yet no invalid command is reported. *)
Lemma linha_vazia_sem_relato :
  eh_comando nl = false
  ∧ comando estado_inicial nl = Some (estado_inicial, [], Continua)
  ∧ ¬ (∃ st' k, comando estado_inicial nl = Some (st', [MInvalido], k)).
Proof.
  split; [reflexivity|]. split; [reflexivity|].
  intros (st' & k & H). change (comando estado_inicial nl)
    with (Some (estado_inicial, @nil Msg, Continua)) in H. discriminate H.
Qed.

(** C9 as stated fails on a command with a blank in front: it is not taken
    as the command, while the bare command is. *)
Lemma espaco_na_frente_invalida :
  comando estado_inicial (" e " +:+ nl) = Some (estado_inicial, [MInvalido], Continua)
  ∧ comando estado_inicial ("e" +:+ nl)
    = Some (mkEstado mansao biblioteca PNil, [], Continua)
  ∧ comando estado_inicial (" e " +:+ nl) ≠ comando estado_inicial ("e" +:+ nl).
Proof.
  assert (H1 : comando estado_inicial (" e " +:+ nl)
               = Some (estado_inicial, [MInvalido], Continua)) by reflexivity.
  assert (H2 : comando estado_inicial ("e" +:+ nl)
               = Some (mkEstado mansao biblioteca PNil, [], Continua))
    by (vm_compute; reflexivity).
  split; [exact H1|]. split; [exact H2|]. rewrite H1, H2. discriminate.
Qed.

Lemma comando_sem_aparar_espacos_witness :
  comando estado_inicial ("E  " +:+ nl) = comando estado_inicial "e"
  ∧ comando estado_inicial (" e" +:+ nl) = Some (estado_inicial, [MInvalido], Continua).
Proof.
  split.
  - apply (proj1 (comando_sem_aparar_espacos estado_inicial "E"%char ("  " +:+ nl))).
    right; left. reflexivity.
  - apply (proj1 (proj2 (comando_sem_aparar_espacos estado_inicial " "%char ("e" +:+ nl)))).
    + reflexivity.
    + discriminate.
Defined.

Lemma comando_so_primeiro_byte_witness :
  trim_nl ("exit" +:+ nl) = String "e"%char "xit"
  ∧ comando estado_inicial ("exit" +:+ nl) = comando estado_inicial ("e" +:+ nl)
  ∧ comando estado_inicial ("exit" +:+ nl)
    = Some (mkEstado mansao biblioteca PNil, [], Continua)
  ∧ trim_nl ("Exit" +:+ nl) = String "E"%char "xit"
  ∧ comando estado_inicial ("Exit" +:+ nl)
    = Some (mkEstado mansao biblioteca PNil, [], Continua)
  ∧ comando estado_inicial ("Direita" +:+ nl)
    = Some (mkEstado mansao salaEstar PNil, [], Continua)
  ∧ comando estado_inicial ("Sr. Almeida" +:+ nl)
    = Some (estado_inicial, [MEncerrar], Para).
Proof.
  assert (Ht : trim_nl ("exit" +:+ nl) = String "e"%char "xit") by reflexivity.
  assert (HtE : trim_nl ("Exit" +:+ nl) = String "E"%char "xit") by reflexivity.
  assert (HtD : trim_nl ("Direita" +:+ nl) = String "D"%char "ireita") by reflexivity.
  assert (HtS : trim_nl ("Sr. Almeida" +:+ nl) = String "S"%char "r. Almeida")
    by reflexivity.
  destruct (comando_so_primeiro_byte estado_inicial ("exit" +:+ nl) "e"%char "xit" Ht)
    as (H1 & _ & H3 & _).
  destruct (comando_so_primeiro_byte estado_inicial ("Exit" +:+ nl) "E"%char "xit" HtE)
    as (_ & _ & HE & _).
  destruct (comando_so_primeiro_byte estado_inicial ("Direita" +:+ nl)
              "D"%char "ireita" HtD) as (_ & _ & _ & HD & _).
  destruct (comando_so_primeiro_byte estado_inicial ("Sr. Almeida" +:+ nl)
              "S"%char "r. Almeida" HtS) as (_ & HS & _).
  split; [exact Ht|]. split; [|split; [|split; [exact HtE|split; [|split]]]].
  - symmetry. apply (H1 ("e" +:+ nl) EmptyString). reflexivity.
  - rewrite (H3 eq_refl). vm_compute. reflexivity.
  - rewrite (HE eq_refl). vm_compute. reflexivity.
  - rewrite (HD eq_refl). vm_compute. reflexivity.
  - apply HS. reflexivity.
Defined.

End Execucoes.

(** ** String helpers, hashing and the table beyond lookups *)

Section Auxiliares.

Implicit Types (s : string) (c : ascii) (tab : TabelaHash).

(** X1. [trim_nl] undoes the appending of one newline, and it changes a
    line only by dropping one final newline. *)
Theorem trim_nl_um_newline s :
  trim_nl (s +:+ nl) = s ∧ (trim_nl s = s ∨ s = trim_nl s +:+ nl).
Proof.
  split.
  - induction s as [|c r IH]; [done|].
    destruct r as [|c' r']; [done|].
    change (String c (trim_nl (String c' r' +:+ nl)) = String c (String c' r')).
    by rewrite IH.
  - induction s as [|c r IH]; [by left|].
    destruct r as [|c' r'].
    + simpl. destruct (Ascii.eqb_spec c newline) as [->|]; [by right | by left].
    + destruct IH as [IH|IH].
      * left. change (String c (trim_nl (String c' r')) = String c (String c' r')).
        by rewrite IH.
      * right.
        change (String c (String c' r') = String c (trim_nl (String c' r') +:+ nl)).
        by rewrite <- IH.
Qed.

Lemma lower_char_idem c : lower_char (lower_char c) = lower_char c.
Proof. by destruct c as [[] [] [] [] [] [] [] []]. Qed.

Lemma lower_char_sem_maiuscula c : ¬ (65 ≤ uchar (lower_char c) ≤ 90).
Proof. destruct c as [[] [] [] [] [] [] [] []]; vm_compute; intros [H1 H2]; auto. Qed.

Lemma lower_char_maiuscula c :
  (65 ≤ uchar c ≤ 90 → uchar (lower_char c) = uchar c + 32)
  ∧ (¬ (65 ≤ uchar c ≤ 90) → lower_char c = c).
Proof.
  unfold lower_char, tolower. split; intros H.
  - replace ((65 <=? uchar c) && (uchar c <=? 90)) with true
      by (symmetry; apply andb_true_iff; split; apply Z.leb_le; lia).
    unfold uchar at 1. rewrite N_ascii_embedding.
    + rewrite Z2N.id; lia.
    + apply N2Z.inj_lt. rewrite Z2N.id by lia. change (Z.of_N 256) with 256. lia.
  - replace ((65 <=? uchar c) && (uchar c <=? 90)) with false.
    + unfold uchar. by rewrite N2Z.id, ascii_N_embedding.
    + symmetry. apply andb_false_iff.
      destruct (Z.leb_spec 65 (uchar c)); [right; apply Z.leb_gt; lia | by left].
Qed.

(** X2. [to_lower_inplace] keeps the length, leaves no upper-case ASCII
    letter, moves each upper-case letter 32 up and keeps every other byte,
    and doing it twice is doing it once. *)
Theorem to_lower_inplace_minusculas s :
  String.length (to_lower_inplace s) = String.length s
  ∧ to_lower_inplace (to_lower_inplace s) = to_lower_inplace s
  ∧ (∀ i c, String.get i s = Some c →
       ∃ c', String.get i (to_lower_inplace s) = Some c'
             ∧ ¬ (65 ≤ uchar c' ≤ 90)
             ∧ (65 ≤ uchar c ≤ 90 → uchar c' = uchar c + 32)
             ∧ (¬ (65 ≤ uchar c ≤ 90) → c' = c)).
Proof.
  induction s as [|c0 r (IH1 & IH2 & IH3)]; [repeat split; done|].
  simpl. rewrite IH1, IH2, lower_char_idem. repeat split; try done.
  intros [|i] c H; simpl in *.
  - injection H as <-. exists (lower_char c0).
    split; [done|]. split; [apply lower_char_sem_maiuscula|].
    apply lower_char_maiuscula.
  - by apply IH3.
Qed.

End Auxiliares.

Section TabelaExtra.

Implicit Types (tab : TabelaHash) (p k v : string).

Lemma djb2_passo h c :
  wrap_ulong (wrap_ulong (wrap_ulong (Z.shiftl h 5) + h) + uchar c)
  = (h * 33 + uchar c) mod 18446744073709551616.
Proof.
  unfold wrap_ulong. rewrite Z.shiftl_mul_pow2 by lia.
  rewrite Zplus_mod_idemp_l.
  replace (h * 2 ^ 5 mod 18446744073709551616 + h + uchar c)
    with (h * 2 ^ 5 mod 18446744073709551616 + (h + uchar c)) by lia.
  rewrite Zplus_mod_idemp_l. f_equal. lia.
Qed.

Lemma djb2_loop_mod s h h' :
  h mod 18446744073709551616 = h' mod 18446744073709551616 →
  djb2_loop h s mod 18446744073709551616 = djb2_exato h' s mod 18446744073709551616.
Proof.
  revert h h'. induction s as [|c r IH]; intros h h' E; simpl; [done|].
  rewrite djb2_passo. apply IH. rewrite Z.mod_mod by lia.
  rewrite (Z.add_mod (h * 33)), (Z.add_mod (h' * 33)) by lia.
  rewrite (Z.mul_mod h), (Z.mul_mod h'), E by lia. done.
Qed.

Lemma djb2_loop_range s h :
  0 ≤ h < 18446744073709551616 → 0 ≤ djb2_loop h s < 18446744073709551616.
Proof.
  revert h. induction s as [|c r IH]; intros h Hh; simpl; [done|].
  apply IH. rewrite djb2_passo. apply Z.mod_pos_bound. lia.
Qed.

(** X3. [hash_djb2] is the exact polynomial 5381, h*33 + byte, ... taken
    modulo 2^64: the shift-and-add of the loop is the multiplication by
    33, and reducing at every step is reducing once at the end.  The hash
    is an [unsigned long] and its bucket index is below [HASH_SIZE]. *)
Theorem hash_djb2_polinomio (str : string) :
  hash_djb2 str = djb2_exato 5381 str mod 18446744073709551616
  ∧ 0 ≤ hash_djb2 str < 18446744073709551616
  ∧ (balde str < Z.to_nat HASH_SIZE)%nat.
Proof.
  assert (Hr : 0 ≤ hash_djb2 str < 18446744073709551616)
    by (apply djb2_loop_range; lia).
  split; [|split; [done | apply balde_lt]].
  rewrite <- (djb2_loop_mod str 5381 5381 eq_refl).
  symmetry. by apply Z.mod_small.
Qed.

(** X4. [inserirNaHash] writes inside the array: the table keeps its
    [HASH_SIZE] buckets, the new entry becomes the head of the chain of
    its bucket, in front of the entries that were there, and every other
    bucket is untouched. *)
Theorem inserirNaHash_no_balde tab k v :
  tabela_ok tab →
  tabela_ok (inserirNaHash tab k v)
  ∧ (∃ cadeia, tab !! balde k = Some cadeia
               ∧ inserirNaHash tab k v !! balde k = Some (mkEntry k v :: cadeia))
  ∧ (∀ i, i ≠ balde k → inserirNaHash tab k v !! i = tab !! i).
Proof.
  intros Hok. split; [by apply inserirNaHash_ok|]. split.
  - destruct (lookup_lt_is_Some_2 tab (balde k)) as [cadeia Hc].
    { rewrite Hok. apply balde_lt. }
    exists cadeia. split; [done|]. unfold inserirNaHash. cbv zeta.
    rewrite Hc. simpl. apply list_lookup_insert_eq.
    rewrite Hok. apply balde_lt.
  - intros i Hi. unfold inserirNaHash. cbv zeta. by apply list_lookup_insert_ne.
Qed.

(** X5. In a table of [HASH_SIZE] buckets, whatever it holds, a lookup
    right after [inserirNaHash k v] gives [v] for [k] and gives for every
    other clue what it gave before. *)
Theorem encontrar_apos_inserir tab k v :
  tabela_ok tab →
  encontrarSuspeito (inserirNaHash tab k v) k = Some v
  ∧ ∀ p, p ≠ k →
      encontrarSuspeito (inserirNaHash tab k v) p = encontrarSuspeito tab p.
Proof.
  intros Hok. split.
  - rewrite encontrar_inserir by done. by rewrite decide_True.
  - intros p Hp. rewrite encontrar_inserir by done. by rewrite decide_False.
Qed.

Lemma limpar_length (l : list (list HashEntry)) (n : nat) :
  length (foldl (fun t i => <[i := []]> t) l (seq 0 n)) = length l.
Proof.
  induction n as [|n IH]; [done|].
  by rewrite seq_S, foldl_snoc, length_insert.
Qed.

Lemma limpar_lookup (l : list (list HashEntry)) (n j : nat) :
  (j < length l)%nat →
  foldl (fun t i => <[i := []]> t) l (seq 0 n) !! j
  = if decide (j < n)%nat then Some [] else l !! j.
Proof.
  intros Hj. induction n as [|n IH]; [done|].
  rewrite seq_S, foldl_snoc, Nat.add_0_l.
  destruct (decide (j = n)) as [->|Hne].
  - rewrite list_lookup_insert_eq by by rewrite limpar_length.
    by rewrite decide_True by lia.
  - rewrite list_lookup_insert_ne, IH by done.
    destruct (decide (j < n)%nat), (decide (j < S n)%nat); try done; lia.
Qed.

(** X6. On a table of [HASH_SIZE] buckets [liberarHash] leaves the empty
    table: every bucket is NULL, every lookup fails, and running it again
    changes nothing. *)
Theorem liberarHash_esvazia tab :
  tabela_ok tab →
  liberarHash tab = tabela_vazia
  ∧ (∀ p, encontrarSuspeito (liberarHash tab) p = None)
  ∧ liberarHash (liberarHash tab) = liberarHash tab.
Proof.
  intros Hok.
  assert (H : ∀ t : TabelaHash, tabela_ok t → liberarHash t = tabela_vazia).
  { intros t Ht. apply list_eq. intros j. unfold liberarHash, tabela_vazia.
    destruct (decide (j < Z.to_nat HASH_SIZE)%nat) as [Hj|Hj].
    - rewrite limpar_lookup by by rewrite Ht.
      by rewrite decide_True, lookup_replicate_2.
    - rewrite (proj1 (lookup_replicate_None _ _ _)) by lia.
      apply lookup_ge_None. rewrite limpar_length, Ht. lia. }
  rewrite (H tab Hok). split; [done|]. split.
  - apply encontrar_vazia.
  - apply H, tabela_vazia_ok.
Qed.

End TabelaExtra.

Section ContagemExtra.

Implicit Types (tab : TabelaHash) (t : PistaNode) (p alvo : string).

Lemma wrap_int_in_int z : in_int (wrap_int z).
Proof.
  unfold in_int, INT_MIN, INT_MAX, wrap_int.
  pose proof (Z.mod_pos_bound (z + 2147483648) 4294967296). lia.
Qed.

Lemma wrap_int_desvio z : ∃ k, wrap_int z = z + 4294967296 * k.
Proof.
  exists (- ((z + 2147483648) / 4294967296)). unfold wrap_int.
  pose proof (Z.div_mod (z + 2147483648) 4294967296). lia.
Qed.

Lemma wrap_int_igual a b :
  wrap_int a = wrap_int b ↔ ∃ k, a = b + 4294967296 * k.
Proof.
  split.
  - intros H. destruct (wrap_int_desvio a) as [ka Ha], (wrap_int_desvio b) as [kb Hb].
    exists (kb - ka). lia.
  - intros [k ->]. unfold wrap_int. f_equal.
    replace (b + 4294967296 * k + 2147483648) with (b + 2147483648 + k * 4294967296) by lia.
    apply Z_mod_plus_full.
Qed.

Lemma soma_inserir_wrap tab alvo t p :
  wrap_int (soma_que_apontam tab alvo (exibirPistasInOrder (inserirPista t p)))
  = wrap_int (soma_que_apontam tab alvo (exibirPistasInOrder t)
              + (if aponta tab alvo p then 1 else 0)).
Proof.
  induction t as [|l IHl q c r IHr].
  - change (exibirPistasInOrder (inserirPista PNil p)) with [(p, 1)].
    rewrite soma_que_apontam_cons. f_equal. unfold soma_que_apontam. simpl. lia.
  - apply wrap_int_igual in IHl as [kl IHl], IHr as [kr IHr].
    apply wrap_int_igual. cbn [inserirPista].
    destruct (strcmp p q) eqn:E; cbn [exibirPistasInOrder];
      rewrite !soma_que_apontam_app, !soma_que_apontam_cons; cbn [fst snd].
    + apply strcmp_eq in E as <-. destruct (aponta tab alvo p).
      * destruct (wrap_int_desvio (c + 1)) as [k Hk]. exists k. lia.
      * exists 0. lia.
    + exists kl. rewrite IHl. destruct (aponta tab alvo p), (aponta tab alvo q); lia.
    + exists kr. rewrite IHr. destruct (aponta tab alvo p), (aponta tab alvo q); lia.
Qed.

(** X7. Counting after one more insertion: as long as the count is below
    [INT_MAX], inserting clue [p] raises the count for a suspect by one
    when the table resolves [p] to that suspect and leaves it as it was
    otherwise, whatever the shape of the ledger. *)
Theorem contar_apos_inserir tab t p alvo :
  contarPistasQueApontam tab t alvo < INT_MAX →
  contarPistasQueApontam tab (inserirPista t p) alvo
  = contarPistasQueApontam tab t alvo
    + (if bool_decide (encontrarSuspeito tab p = Some alvo) then 1 else 0).
Proof.
  intros Hlt. fold (aponta tab alvo p).
  rewrite (contar_wrap tab (inserirPista t p)), soma_inserir_wrap.
  rewrite <- wrap_int_add_l, <- contar_wrap.
  apply wrap_int_id.
  pose proof (wrap_int_in_int (soma_que_apontam tab alvo (exibirPistasInOrder t))) as H.
  rewrite <- contar_wrap in H. unfold in_int, INT_MIN in *.
  destruct (aponta tab alvo p); lia.
Qed.

Lemma mais_recente_elem p antes (ins : list (string * string)) s :
  mais_recente p antes ins = Some s → antes = Some s ∨ (p, s) ∈ ins.
Proof.
  revert antes. induction ins as [|[k v] ins IH]; intros antes; simpl; [by left|].
  intros H. apply IH in H as [H|H]; [|right; by apply list_elem_of_further].
  destruct (decide (k = p)) as [->|]; [|by left].
  injection H as ->. right. apply list_elem_of_here.
Qed.

Lemma soma_nenhuma tab alvo (xs : list (string * Z)) :
  (∀ p, encontrarSuspeito tab p ≠ Some alvo) → soma_que_apontam tab alvo xs = 0.
Proof.
  intros H. induction xs as [|x xs IH]; [done|].
  rewrite soma_que_apontam_cons, IH. unfold aponta.
  by rewrite bool_decide_eq_false_2 by apply H.
Qed.

(** X8. Accusing a name that is the suspect of no association of the
    table (a misspelt or differently cased name, say) is no error: the
    total is 0 and the verdict is weak, whatever the ledger holds. *)
Theorem acusado_desconhecido (ins : list (string * string)) t (linha : string) :
  trim_nl linha ≠ EmptyString →
  trim_nl linha ∉ ins.*2 →
  contarPistasQueApontam (preencher tabela_vazia ins) t (trim_nl linha) = 0
  ∧ fase_acusacao (preencher tabela_vazia ins) t (Some linha)
    = [MPedeAcusado; MAcusou (trim_nl linha); MNumero (trim_nl linha) 0; MFraca].
Proof.
  intros Hne Hnot.
  assert (H0 : contarPistasQueApontam (preencher tabela_vazia ins) t (trim_nl linha) = 0).
  { rewrite contar_wrap, soma_nenhuma; [done|].
    intros p Hp. rewrite encontrar_preencher in Hp by apply tabela_vazia_ok.
    rewrite encontrar_vazia in Hp. apply mais_recente_elem in Hp as [Hp|Hp]; [done|].
    apply Hnot. apply list_elem_of_fmap. by exists (p, trim_nl linha). }
  split; [done|]. unfold fase_acusacao, acusar. simpl.
  destruct (trim_nl linha) eqn:E; [done|]. by rewrite H0.
Qed.

End ContagemExtra.

(** ** Whole runs of the exploration *)

(** What holds of every visit, every command and the prompt, and composes,
    holds of every run of the loop. *)
Section Corrida.

Variable R : Estado → list Msg → Estado → Prop.

Hypothesis R_visitar : ∀ st st1 out, visitar st = Some (st1, out) → R st out st1.
Hypothesis R_comando :
  ∀ st linha st2 out k, comando st linha = Some (st2, out, k) → R st out st2.
Hypothesis R_opcoes : ∀ st, R st [MOpcoes] st.
Hypothesis R_seq :
  ∀ st1 st2 st3 o1 o2, R st1 o1 st2 → R st2 o2 st3 → R st1 (o1 ++ o2) st3.

Lemma explorar_loop_R stdin st st' resto out :
  explorar_loop st stdin = Some (st', resto, out) → R st out st'.
Proof.
  revert st st' resto out.
  induction stdin as [|linha stdin IH]; intros st st' resto out; simpl.
  - destruct (visitar st) as [[st1 o1]|] eqn:Hv; simpl; [|done].
    intros [= <- <- <-]. eapply R_seq; eauto.
  - destruct (visitar st) as [[st1 o1]|] eqn:Hv; simpl; [|done].
    destruct (comando st1 linha) as [[[st2 o2] k]|] eqn:Hc; simpl; [|done].
    destruct k.
    + destruct (explorar_loop st2 stdin) as [[[st3 r3] o3]|] eqn:He; simpl; [|done].
      intros [= <- <- <-].
      eapply R_seq; [eauto|]. change (MOpcoes :: o2 ++ o3) with ([MOpcoes] ++ o2 ++ o3).
      eapply R_seq; [eauto|]. eapply R_seq; eauto.
    + intros [= <- <- <-].
      eapply R_seq; [eauto|]. change (MOpcoes :: o2) with ([MOpcoes] ++ o2).
      eapply R_seq; eauto.
Qed.

End Corrida.

Section Corridas.

Implicit Types (st : Estado) (linha : string) (stdin : list string) (a : nat).

Lemma coletar_app t (ps qs : list string) :
  coletar t (ps ++ qs) = coletar (coletar t ps) qs.
Proof. unfold coletar. by rewrite foldl_app. Qed.

Lemma pistas_encontradas_app (o1 o2 : list Msg) :
  pistas_encontradas (o1 ++ o2) = pistas_encontradas o1 ++ pistas_encontradas o2.
Proof. apply omap_app. Qed.

Lemma comando_sem_pistas st linha st2 out k :
  comando st linha = Some (st2, out, k) → pistas_encontradas out = [].
Proof.
  unfold comando. intros H.
  repeat (case_match; simplify_option_eq); done.
Qed.

Lemma explorar_loop_ledger stdin st st' resto out :
  explorar_loop st stdin = Some (st', resto, out) →
  rootPistas st' = coletar (rootPistas st) (pistas_encontradas out).
Proof.
  apply (explorar_loop_R
           (fun st out st' =>
              rootPistas st' = coletar (rootPistas st) (pistas_encontradas out))).
  - intros s s1 o. unfold visitar.
    destruct (salas s !! atual s) as [r|]; simpl; [|done].
    destruct (pista r); [destruct (pistaColetada r)|]; simpl; by intros [= <- <-].
  - intros s l s2 o k H. rewrite (comando_sem_pistas _ _ _ _ _ H).
    by apply comando_inv in H as [_ ->].
  - done.
  - intros s1 s2 s3 o1 o2 H1 H2.
    by rewrite pistas_encontradas_app, coletar_app, <- H1, <- H2.
Qed.

Lemma explorar_loop_bem_formado stdin st st' resto out :
  explorar_loop st stdin = Some (st', resto, out) → bem_formado st → bem_formado st'.
Proof.
  apply (explorar_loop_R (fun st _ st' => bem_formado st → bem_formado st')).
  - intros s s1 o Hv Hs. destruct (visitar_total s Hs) as (s1' & o' & E & H1).
    rewrite Hv in E. by injection E as -> ->.
  - intros s l s2 o k Hc Hs. destruct (comando_total s l Hs) as (s2' & o' & k' & E & H2).
    rewrite Hc in E. by injection E as -> -> ->.
  - done.
  - auto.
Qed.

Lemma explorar_loop_planta stdin st st' resto out :
  explorar_loop st stdin = Some (st', resto, out) →
  ∀ a, planta <$> salas st' !! a = planta <$> salas st !! a.
Proof.
  apply (explorar_loop_R
           (fun st _ st' => ∀ a, planta <$> salas st' !! a = planta <$> salas st !! a)).
  - intros s s1 o Hv. apply (visitar_inv _ _ _ Hv).
  - intros s l s2 o k Hc a. by apply comando_inv in Hc as [-> _].
  - done.
  - intros s1 s2 s3 _ _ H1 H2 a. by rewrite H2, H1.
Qed.

Lemma filho_planta (m m' : gmap nat Sala) a b :
  (∀ c, planta <$> m' !! c = planta <$> m !! c) → filho m' a b → filho m a b.
Proof.
  intros H (s' & Hs' & Hb). specialize (H a). rewrite Hs' in H.
  destruct (m !! a) as [s|] eqn:Hs; [|done]. simpl in H. unfold planta in H.
  injection H as _ _ He Hd. exists s. split; [done|]. by rewrite <- He, <- Hd.
Qed.

Lemma explorar_loop_desce stdin st st' resto out :
  explorar_loop st stdin = Some (st', resto, out) →
  rtc (filho (salas st)) (atual st) (atual st').
Proof.
  intros H.
  cut ((∀ a, planta <$> salas st' !! a = planta <$> salas st !! a)
       ∧ rtc (filho (salas st)) (atual st) (atual st')); [tauto|].
  revert H.
  apply (explorar_loop_R
           (fun st _ st' =>
              (∀ a, planta <$> salas st' !! a = planta <$> salas st !! a)
              ∧ rtc (filho (salas st)) (atual st) (atual st'))).
  - intros s s1 o Hv. destruct (visitar_inv _ _ _ Hv) as (Ha & Hp & _).
    split; [done|]. by rewrite Ha.
  - intros s l s2 o k Hc. split; [by apply comando_inv in Hc as [-> _]|].
    unfold comando in Hc.
    repeat (case_match; simplify_option_eq); try done.
    all: apply rtc_once; eexists; split; [done|]; auto.
  - done.
  - intros s1 s2 s3 _ _ [Hp1 Hr1] [Hp2 Hr2]. split.
    + intros a. by rewrite Hp2, Hp1.
    + etrans; [exact Hr1|]. eapply rtc_subrel; [|exact Hr2].
      intros a b. by apply filho_planta.
Qed.

Lemma pendentes_marcar (m : gmap nat Sala) a s :
  m !! a = Some s → is_Some (pista s) → pistaColetada s = false →
  S (pendentes (<[a := marcar_coletada s]> m)) = pendentes m.
Proof.
  intros Hs Hp Hc. unfold pendentes.
  rewrite map_filter_insert_False by (by intros [_ ?]).
  rewrite map_filter_delete, map_size_delete_Some.
  - assert (Hin : filter (fun kv : nat * Sala => pendente kv.2) m !! a = Some s)
      by (by apply map_lookup_filter_Some).
    destruct (size (filter (fun kv : nat * Sala => pendente kv.2) m)) eqn:E; [|done].
    apply map_size_empty_inv in E. by rewrite E in Hin.
  - exists s. by apply map_lookup_filter_Some.
Qed.

Lemma explorar_loop_pendentes stdin st st' resto out :
  explorar_loop st stdin = Some (st', resto, out) →
  (length (pistas_encontradas out) + pendentes (salas st') = pendentes (salas st))%nat.
Proof.
  apply (explorar_loop_R
           (fun st out st' =>
              (length (pistas_encontradas out) + pendentes (salas st')
               = pendentes (salas st))%nat)).
  - intros s s1 o. unfold visitar.
    destruct (salas s !! atual s) as [r|] eqn:Hr; simpl; [|done].
    destruct (pista r) eqn:Hp; [destruct (pistaColetada r) eqn:Hc|]; simpl;
      intros [= <- <-]; try done.
    simpl. apply pendentes_marcar; [done| by rewrite Hp |done].
  - intros s l s2 o k H. rewrite (comando_sem_pistas _ _ _ _ _ H).
    by apply comando_inv in H as [-> _].
  - done.
  - intros s1 s2 s3 o1 o2 H1 H2.
    rewrite pistas_encontradas_app, length_app. lia.
Qed.

Lemma explorar_loop_coerente stdin st st' resto out :
  explorar_loop st stdin = Some (st', resto, out) → coerente st → coerente st'.
Proof.
  apply (explorar_loop_R (fun st _ st' => coerente st → coerente st')).
  - intros s s1 o. unfold visitar.
    destruct (salas s !! atual s) as [r|] eqn:Hr; simpl; [|done].
    destruct (pista r) as [p|] eqn:Hp; [destruct (pistaColetada r) eqn:Hc|]; simpl;
      intros [= <- <-]; try done.
    intros [H1 H2]. split; simpl.
    + intros a s0 Hs0 Hc0. destruct (decide (a = atual s)) as [->|Hne].
      * rewrite lookup_insert_eq in Hs0. injection Hs0 as <-.
        exists p. split; [done|]. apply elem_chaves_inserir. by left.
      * rewrite lookup_insert_ne in Hs0 by done.
        destruct (H1 _ _ Hs0 Hc0) as (q & Hq & Hin).
        exists q. split; [done|]. apply elem_chaves_inserir. by right.
    + intros k [->|Hk]%elem_chaves_inserir.
      * exists (atual s), (marcar_coletada r). by rewrite lookup_insert_eq.
      * destruct (H2 _ Hk) as (a & s0 & Hs0 & Hp0 & Hc0).
        destruct (decide (a = atual s)) as [->|Hne]; [congruence|].
        exists a, s0. by rewrite lookup_insert_ne.
  - intros s l s2 o k Hc. apply comando_inv in Hc as [Hs Hl].
    unfold coerente. by rewrite Hs, Hl.
  - done.
  - auto.
Qed.

Lemma comando_para st linha st2 out k :
  comando st linha = Some (st2, out, k) →
  (k = Para ↔ eh_sair linha = true) ∧ (MEncerrar ∈ out ↔ eh_sair linha = true).
Proof.
  unfold comando, eh_sair. intros H.
  repeat (case_match; simplify_option_eq);
    (split; split; try done; try (by intros ?%not_elem_of_nil);
     try (by intros [?|?%not_elem_of_nil]%elem_of_cons)).
  all: intros _; apply list_elem_of_here.
Qed.

Lemma visitar_sem_encerrar st st1 out : visitar st = Some (st1, out) → MEncerrar ∉ out.
Proof.
  unfold visitar.
  destruct (salas st !! atual st) as [r|]; simpl; [|done].
  destruct (pista r); [destruct (pistaColetada r)|]; simpl; intros [= <- <-];
    by intros [?|[?|?%not_elem_of_nil]%elem_of_cons]%elem_of_cons.
Qed.

Lemma explorar_loop_resto stdin st st' resto out :
  explorar_loop st stdin = Some (st', resto, out) →
  resto = depois_de_sair stdin
  ∧ (MEncerrar ∈ out ↔ ∃ linha, linha ∈ stdin ∧ eh_sair linha = true).
Proof.
  revert st st' resto out.
  induction stdin as [|linha stdin IH]; intros st st' resto out; simpl.
  - destruct (visitar st) as [[st1 o1]|] eqn:Hv; simpl; [|done].
    intros [= <- <- <-]. split; [done|].
    pose proof (visitar_sem_encerrar _ _ _ Hv).
    rewrite elem_of_app, list_elem_of_singleton. split; [naive_solver|].
    by intros (l & ?%not_elem_of_nil & _).
  - destruct (visitar st) as [[st1 o1]|] eqn:Hv; simpl; [|done].
    pose proof (visitar_sem_encerrar _ _ _ Hv) as Hn1.
    destruct (comando st1 linha) as [[[st2 o2] k]|] eqn:Hc; simpl; [|done].
    destruct (comando_para _ _ _ _ _ Hc) as [Hk Ho2].
    destruct k.
    + destruct (explorar_loop st2 stdin) as [[[st3 r3] o3]|] eqn:He; simpl; [|done].
      intros [= <- <- <-]. destruct (IH _ _ _ _ He) as [-> Ho3].
      assert (Hs : eh_sair linha = false).
      { destruct (eh_sair linha); [|done]. by pose proof (proj2 Hk eq_refl). }
      rewrite Hs. split; [done|].
      rewrite elem_of_app, elem_of_cons, elem_of_app, Ho3, Ho2, Hs.
      split.
      * intros [?|[?|[?|(l & Hl & E)]]]; try done.
        exists l. split; [by apply list_elem_of_further | done].
      * intros (l & [->|Hl]%elem_of_cons & E); [congruence|].
        right; right; right. by exists l.
    + intros [= <- <- <-].
      assert (Hs : eh_sair linha = true) by by apply Hk.
      rewrite Hs. split; [done|].
      rewrite elem_of_app, elem_of_cons, Ho2. split; [|by auto].
      intros _. exists linha. split; [apply list_elem_of_here | done].
Qed.

Lemma explorar_loop_sem_repeticao stdin st st' resto out :
  explorar_loop st stdin = Some (st', resto, out) →
  pistas_distintas (salas st) → sem_repeticao st →
  pistas_distintas (salas st') ∧ sem_repeticao st'.
Proof.
  apply (explorar_loop_R
           (fun st _ st' =>
              pistas_distintas (salas st) → sem_repeticao st →
              pistas_distintas (salas st') ∧ sem_repeticao st')).
  - intros s s1 o. unfold visitar.
    destruct (salas s !! atual s) as [r|] eqn:Hr; simpl; [|done].
    destruct (pista r) as [p|] eqn:Hp; [destruct (pistaColetada r) eqn:Hc|]; simpl;
      intros [= <- <-]; try done.
    intros Hd [H1 H2].
    assert (Hlk : ∀ b sb, <[atual s:=marcar_coletada r]> (salas s) !! b = Some sb →
                  ∃ sb0, salas s !! b = Some sb0 ∧ pista sb = pista sb0
                         ∧ (pistaColetada sb = false → b ≠ atual s ∧ sb = sb0)).
    { intros b sb Hb. destruct (decide (b = atual s)) as [->|Hne].
      - rewrite lookup_insert_eq in Hb. injection Hb as <-. exists r.
        split; [done|]. split; [done|]. done.
      - rewrite lookup_insert_ne in Hb by done. exists sb. auto. }
    split; [|split]; simpl.
    + intros a sa Ha b sb Hb Hsa Heq.
      destruct (Hlk _ _ Ha) as (sa0 & Ha0 & Ea & _), (Hlk _ _ Hb) as (sb0 & Hb0 & Eb & _).
      apply (Hd a sa0 Ha0 b sb0 Hb0); congruence.
    + apply (inserir_ausente (rootPistas s) p); [|done]. by apply (H2 _ _ _ Hr Hp Hc).
    + intros a s0 q Ha Hq Hcq [->|Hin]%elem_chaves_inserir.
      * destruct (Hlk _ _ Ha) as (s00 & Ha0 & Ea & Hf).
        destruct (Hf Hcq) as [Hne ->]. apply Hne.
        apply (Hd a s00 Ha0 (atual s) r Hr); [by rewrite Hq | congruence].
      * destruct (Hlk _ _ Ha) as (s00 & Ha0 & Ea & Hf).
        destruct (Hf Hcq) as [Hne ->]. by apply (H2 _ _ _ Ha0 Hq Hcq).
  - intros s l s2 o k Hc. apply comando_inv in Hc as [Hs Hl].
    unfold sem_repeticao. by rewrite Hs, Hl.
  - done.
  - intros s1 s2 s3 _ _ H1 H2 Hd Hs. destruct (H1 Hd Hs). auto.
Qed.

Lemma explorarSalas_total m inicio root stdin :
  bem_formado (mkEstado m inicio root) →
  ∃ st' resto out,
    explorar_loop (mkEstado m inicio root) stdin = Some (st', resto, out)
    ∧ explorarSalasComPistas m inicio root stdin = Some (st', resto, MComeco :: out).
Proof.
  intros Hbf.
  destruct (explorar_loop_total stdin _ Hbf) as (st' & resto & out & He & _).
  exists st', resto, out. split; [done|].
  unfold explorarSalasComPistas. by rewrite He.
Qed.

(** X9. The exploration returns on every well-formed store, and the
    ledger it leaves is the ledger it got with exactly the clues announced
    as found inserted, in the order of the announcements; a search-tree
    ledger stays a search tree. *)
Theorem exploracao_ledger m inicio root stdin :
  bem_formado (mkEstado m inicio root) →
  ∃ st' resto out,
    explorarSalasComPistas m inicio root stdin = Some (st', resto, out)
    ∧ rootPistas st' = coletar root (pistas_encontradas out)
    ∧ (bst root → bst (rootPistas st')).
Proof.
  intros Hbf. destruct (explorarSalas_total _ _ _ stdin Hbf) as (st' & resto & out & He & E).
  exists st', resto, (MComeco :: out). split; [done|].
  pose proof (explorar_loop_ledger _ _ _ _ _ He) as Hl. simpl in Hl.
  split; [done|]. intros Hb. change (pistas_encontradas (MComeco :: out))
    with (pistas_encontradas out) in Hl. rewrite Hl. by apply bst_coletar.
Qed.

(** X10. Each room gives its clue at most once: in every run the number
    of clues announced as found is the number of rooms that held a clue to
    collect before the run minus the number of those that still do after. *)
Theorem exploracao_uma_pista_por_sala m inicio root stdin :
  bem_formado (mkEstado m inicio root) →
  ∃ st' resto out,
    explorarSalasComPistas m inicio root stdin = Some (st', resto, out)
    ∧ (length (pistas_encontradas out) + pendentes (salas st') = pendentes m)%nat.
Proof.
  intros Hbf. destruct (explorarSalas_total _ _ _ stdin Hbf) as (st' & resto & out & He & E).
  exists st', resto, (MComeco :: out). split; [done|].
  apply (explorar_loop_pendentes _ _ _ _ _ He).
Qed.

(** X11. The exploration reads the input up to and including the first
    exit command and leaves the rest unread; without an exit command it
    reads everything.  It reports the end of the exploration exactly when
    some line is an exit command. *)
Theorem exploracao_consome_ate_sair m inicio root stdin :
  bem_formado (mkEstado m inicio root) →
  ∃ st' out,
    explorarSalasComPistas m inicio root stdin = Some (st', depois_de_sair stdin, out)
    ∧ (MEncerrar ∈ out ↔ ∃ linha, linha ∈ stdin ∧ eh_sair linha = true).
Proof.
  intros Hbf. destruct (explorarSalas_total _ _ _ stdin Hbf) as (st' & resto & out & He & E).
  destruct (explorar_loop_resto _ _ _ _ _ He) as [-> Hout].
  exists st', (MComeco :: out). split; [done|].
  rewrite elem_of_cons, Hout. naive_solver.
Qed.

(** X12. The exploration only walks down: it ends in a room reached from
    the start by following left and right links, on a store that is still
    well formed and in which every room has the name, the clue and the
    links it had. *)
Theorem exploracao_so_desce m inicio root stdin :
  bem_formado (mkEstado m inicio root) →
  ∃ st' resto out,
    explorarSalasComPistas m inicio root stdin = Some (st', resto, out)
    ∧ bem_formado st'
    ∧ rtc (filho m) inicio (atual st')
    ∧ ∀ a, planta <$> salas st' !! a = planta <$> m !! a.
Proof.
  intros Hbf. destruct (explorarSalas_total _ _ _ stdin Hbf) as (st' & resto & out & He & E).
  exists st', resto, (MComeco :: out). split; [done|]. split; [|split].
  - by apply (explorar_loop_bem_formado _ _ _ _ _ He).
  - apply (explorar_loop_desce _ _ _ _ _ He).
  - apply (explorar_loop_planta _ _ _ _ _ He).
Qed.

(** X13. Rooms and ledger stay in agreement over a run: if before it the
    rooms marked as collected are the rooms whose clue is in the ledger,
    so they are after it. *)
Theorem exploracao_coerente m inicio root stdin :
  bem_formado (mkEstado m inicio root) →
  coerente (mkEstado m inicio root) →
  ∃ st' resto out,
    explorarSalasComPistas m inicio root stdin = Some (st', resto, out)
    ∧ coerente st'.
Proof.
  intros Hbf Hco.
  destruct (explorarSalas_total _ _ _ stdin Hbf) as (st' & resto & out & He & E).
  exists st', resto, (MComeco :: out). split; [done|].
  by apply (explorar_loop_coerente _ _ _ _ _ He).
Qed.

(** X14. When no two rooms hold the same clue, a run that starts with an
    empty ledger ends with every clue of the ledger counted exactly once,
    whatever rooms are revisited. *)
Theorem exploracao_contadores_um m inicio stdin :
  bem_formado (mkEstado m inicio PNil) →
  pistas_distintas m →
  ∃ st' resto out,
    explorarSalasComPistas m inicio PNil stdin = Some (st', resto, out)
    ∧ Forall (fun pc => pc.2 = 1) (exibirPistasInOrder (rootPistas st')).
Proof.
  intros Hbf Hd.
  destruct (explorarSalas_total _ _ _ stdin Hbf) as (st' & resto & out & He & E).
  exists st', resto, (MComeco :: out). split; [done|].
  apply (explorar_loop_sem_repeticao _ _ _ _ _ He Hd).
  split; simpl; [constructor|]. intros a s p _ _ _. unfold chaves. simpl.
  apply not_elem_of_nil.
Qed.

End Corridas.

(** ** Releasing the rooms *)

Section Liberar.

Implicit Types (m : gmap nat Sala) (D : gset nat) (a b : nat).

Lemma lookup_sem D m b :
  sem D m !! b = if decide (b ∈ D) then None else m !! b.
Proof.
  unfold sem. apply option_eq. intros s. rewrite map_lookup_filter_Some. simpl.
  destruct (decide (b ∈ D)); naive_solver.
Qed.

Lemma liberarSalas_arvore m root D :
  arvore m root D →
  ∀ m' fuel, (∀ b, b ∈ D → m' !! b = m !! b) → (size D ≤ fuel)%nat →
    liberarSalas fuel m' root = Liberado (sem D m').
Proof.
  induction 1 as [|a s Dl Dr Hs _ IHl _ IHr Hal Har Hd]; intros m' fuel Hag Hf.
  - destruct fuel; simpl; f_equal; symmetry; apply map_filter_id; set_solver.
  - rewrite !size_union, size_singleton in Hf by set_solver.
    destruct fuel as [|fuel]; [lia|]. simpl.
    rewrite (Hag a), Hs by set_solver.
    rewrite (IHl m' fuel) by (try lia; intros; apply Hag; set_solver).
    rewrite lookup_sem, decide_False, (Hag a), Hs by set_solver.
    rewrite (IHr (sem Dl m') fuel); try lia.
    + rewrite !lookup_sem, !decide_False, (Hag a), Hs by set_solver.
      f_equal. apply map_eq. intros b.
      destruct (decide (b = a)) as [->|Hne].
      * rewrite lookup_delete_eq, lookup_sem, decide_True by set_solver. done.
      * rewrite lookup_delete_ne, !lookup_sem by done.
        destruct (decide (b ∈ Dr)), (decide (b ∈ Dl)),
          (decide (b ∈ {[a]} ∪ Dl ∪ Dr)); try done; set_solver.
    + intros b Hb. rewrite lookup_sem, decide_False by set_solver.
      apply Hag. set_solver.
Qed.

Lemma arvore_planta m m' root D :
  (∀ a, planta <$> m' !! a = planta <$> m !! a) → arvore m root D → arvore m' root D.
Proof.
  intros Hp. induction 1 as [|a s Dl Dr Hs _ IHl _ IHr Hal Har Hd]; [constructor|].
  pose proof (Hp a) as Ha. rewrite Hs in Ha.
  destruct (m' !! a) as [s'|] eqn:Hs'; [|done]. simpl in Ha. unfold planta in Ha.
  injection Ha as _ _ He Hdi. rewrite <- He in IHl. rewrite <- Hdi in IHr.
  by apply (arvore_no m' a s').
Qed.

(** X15. When the rooms under [root] form a tree, [liberarSalas], given
    depth for as many rooms as the tree has, releases exactly the rooms of
    the tree, each once, and never reads or releases a released room; the
    rest of the store is kept as it is. *)
Theorem liberarSalas_libera_arvore m root D fuel :
  arvore m root D → (size D ≤ fuel)%nat →
  liberarSalas fuel m root = Liberado (sem D m)
  ∧ (∀ b, b ∈ D → sem D m !! b = None)
  ∧ (∀ b, b ∉ D → sem D m !! b = m !! b).
Proof.
  intros Ha Hf. split; [by apply (liberarSalas_arvore m root D Ha)|].
  split; intros b Hb; rewrite lookup_sem.
  - by rewrite decide_True.
  - by rewrite decide_False.
Qed.

(** X16. The release works after any exploration: when the rooms under
    the start room form a tree that is the whole store, then after every
    run of the exploration [liberarSalas] from the start room leaves the
    store empty. *)
Theorem liberarSalas_depois_de_explorar m inicio root stdin D :
  bem_formado (mkEstado m inicio root) →
  arvore m (Some inicio) D → dom m = D →
  ∃ st' resto out,
    explorarSalasComPistas m inicio root stdin = Some (st', resto, out)
    ∧ liberarSalas (size D) (salas st') (Some inicio) = Liberado ∅.
Proof.
  intros Hbf Ha Hdom.
  destruct (explorarSalas_total _ _ _ stdin Hbf) as (st' & resto & out & He & E).
  exists st', resto, (MComeco :: out). split; [done|].
  pose proof (explorar_loop_planta _ _ _ _ _ He) as Hp. simpl in Hp.
  rewrite (liberarSalas_arvore (salas st') (Some inicio) D) by
    (try done; by apply (arvore_planta m)).
  f_equal. apply map_eq. intros b. rewrite lookup_sem, lookup_empty.
  destruct (decide (b ∈ D)) as [|Hn]; [done|].
  rewrite <- Hdom in Hn. apply not_elem_of_dom in Hn.
  specialize (Hp b). rewrite Hn in Hp. by destruct (salas st' !! b).
Qed.

(** On a store where two rooms share a child the release touches a room
    that was already released. *)
Example liberarSalas_partilhada :
  liberarSalas 5 salas_partilhadas (Some 0%nat) = Indefinido.
Proof. vm_compute. reflexivity. Qed.

End Liberar.

(** ** The ledger as a multiset *)

Section Multiconjunto.

Implicit Types (t : PistaNode) (p q : string) (c : Z) (ps : list string).

Lemma ocorrencias_snoc p ps q :
  ocorrencias p (ps ++ [q]) = ocorrencias p ps + (if decide (q = p) then 1 else 0).
Proof.
  unfold ocorrencias. rewrite filter_app, length_app.
  rewrite filter_cons, filter_nil. destruct (decide (q = p)); simpl; lia.
Qed.

Lemma ocorrencias_limites p ps : 0 ≤ ocorrencias p ps ≤ Z.of_nat (length ps).
Proof.
  unfold ocorrencias. pose proof (length_filter (fun q => q = p) ps). lia.
Qed.

Lemma elem_exibir_inserir_ausente t q (pc : string * Z) :
  q ∉ chaves t →
  pc ∈ exibirPistasInOrder (inserirPista t q) ↔ pc = (q, 1) ∨ pc ∈ exibirPistasInOrder t.
Proof.
  induction t as [|l IHl k c r IHr]; simpl.
  - intros _. rewrite list_elem_of_singleton. set_solver.
  - rewrite chaves_node, elem_of_app, elem_of_cons. intros Hq.
    destruct (strcmp q k) eqn:E; simpl.
    + apply strcmp_eq in E. tauto.
    + rewrite !elem_of_app, !elem_of_cons, IHl by tauto. tauto.
    + rewrite !elem_of_app, !elem_of_cons, IHr by tauto. tauto.
Qed.

Lemma exibir_coletar_ocorrencias ps :
  Z.of_nat (length ps) ≤ INT_MAX →
  ∀ p c, (p, c) ∈ exibirPistasInOrder (coletar PNil ps)
         ↔ c = ocorrencias p ps ∧ 0 < c.
Proof.
  induction ps as [|q ps IH] using rev_ind; intros Hlen p c.
  - simpl. unfold ocorrencias. simpl. split; [by intros ?%not_elem_of_nil | lia].
  - rewrite length_app in Hlen. simpl in Hlen.
    specialize (IH ltac:(lia)).
    rewrite coletar_snoc, ocorrencias_snoc.
    pose proof (ocorrencias_limites q ps) as Hq.
    destruct (decide (q ∈ chaves (coletar PNil ps))) as [Hin|Hout].
    + apply list_elem_of_fmap in Hin as ([q' c0] & Eq & Hin). simpl in Eq. subst q'.
      pose proof (proj1 (IH q c0) Hin) as [Hc0 Hpos].
      destruct (inserir_presente _ q c0 (bst_coletar PNil ps bst_nil) Hin) as [_ ->].
      rewrite wrap_int_id by (unfold in_int, INT_MIN; lia).
      rewrite list_elem_of_fmap. split.
      * intros ([p0 c1] & Ea & Hpc). unfold atualiza in Ea. simpl in Ea.
        destruct (decide (p0 = q)) as [->|Hne].
        -- injection Ea as -> ->. rewrite decide_True by done. lia.
        -- injection Ea as -> ->. rewrite decide_False by done.
           apply IH in Hpc. lia.
      * intros [Hc Hp]. destruct (decide (q = p)) as [->|Hne].
        -- exists (p, c0). split; [|done]. unfold atualiza. simpl.
           rewrite decide_True by done. f_equal. lia.
        -- exists (p, c). split.
           ++ unfold atualiza. simpl. by rewrite decide_False by done.
           ++ apply IH. lia.
    + assert (H0 : ocorrencias q ps = 0).
      { destruct (decide (0 < ocorrencias q ps)) as [Hp|]; [|lia].
        exfalso. apply Hout. apply (elem_exibir_chaves _ q (ocorrencias q ps)).
        by apply IH. }
      rewrite elem_exibir_inserir_ausente by done. split.
      * intros [[= -> ->]|Hpc].
        -- rewrite decide_True by done. lia.
        -- destruct (decide (q = p)) as [->|Hne].
           ++ exfalso. apply Hout. by apply (elem_exibir_chaves _ p c).
           ++ apply IH in Hpc. lia.
      * intros [Hc Hp]. destruct (decide (q = p)) as [->|Hne].
        -- left. f_equal. lia.
        -- right. apply IH. lia.
Qed.

(** X19. The ledger counts occurrences: after inserting the clues of a
    list (of at most [INT_MAX] elements) into the empty ledger, the listing
    has a line for a clue exactly when the clue occurs in the list, its
    counter is the number of its occurrences, and the counters add up to
    the length of the list. *)
Theorem contadores_sao_ocorrencias ps :
  Z.of_nat (length ps) ≤ INT_MAX →
  (∀ p c, (p, c) ∈ exibirPistasInOrder (coletar PNil ps)
          ↔ c = ocorrencias p ps ∧ 0 < c)
  ∧ contagem_total (exibirPistasInOrder (coletar PNil ps)) = Z.of_nat (length ps).
Proof.
  intros H. split; [by apply exibir_coletar_ocorrencias|].
  by apply coletar_total.
Qed.

End Multiconjunto.

(** ** The program as a whole *)

Section Programa.

Lemma depois_de_sair_nenhum (stdin : list string) :
  Forall (fun linha => eh_sair linha = false) stdin → depois_de_sair stdin = [].
Proof. induction 1 as [|l ls Hl _ IH]; simpl; [done|]. by rewrite Hl. Qed.

Lemma main_forma (stdin : list string) :
  ∃ st' exploracao,
    explorar_loop estado_inicial stdin
    = Some (st', depois_de_sair stdin, exploracao)
    ∧ rootPistas st' = coletar PNil (pistas_encontradas exploracao)
    ∧ main stdin
      = Some (MTitulo :: MComeco :: exploracao
              ++ MCabecalhoPistas :: listar_pistas (rootPistas st')
              ++ fase_acusacao (preencher tabela_vazia associacoes) (rootPistas st')
                   (head (depois_de_sair stdin))
              ++ [MFim]).
Proof.
  destruct (explorar_loop_total stdin _ estado_inicial_bem_formado)
    as (st' & resto & out & He & _).
  destruct (explorar_loop_resto _ _ _ _ _ He) as [-> _].
  exists st', out. split; [done|]. split; [apply (explorar_loop_ledger _ _ _ _ _ He)|].
  unfold main, explorarSalasComPistas.
  change (mkEstado mansao hall PNil) with estado_inicial. by rewrite He.
Qed.

(** X17. [main] never fails, whatever the input: the exploration loop
    run from the hall of the mansion with an empty ledger returns, leaving
    unread the lines after the first exit command, and the output of
    [main] is the banner, the output of that run, the listing of the
    ledger that run leaves, which holds exactly the clues the run announced
    as found, the accusation phase on that ledger with the first unread
    line as the name accused, and the closing message. *)
Theorem main_compoe (stdin : list string) :
  ∃ st' exploracao,
    explorar_loop (mkEstado mansao hall PNil) stdin
    = Some (st', depois_de_sair stdin, exploracao)
    ∧ rootPistas st' = coletar PNil (pistas_encontradas exploracao)
    ∧ main stdin
      = Some (MTitulo :: MComeco :: exploracao
              ++ MCabecalhoPistas :: listar_pistas (rootPistas st')
              ++ fase_acusacao (preencher tabela_vazia associacoes) (rootPistas st')
                   (head (depois_de_sair stdin))
              ++ [MFim]).
Proof. apply main_forma. Qed.

(** X18. When no line of the input is an exit command, the exploration
    uses up the input and [main] ends without an accusation: its output
    ends with the request for a name and the report that none was given,
    and never says that the exploration was ended. *)
Theorem main_sem_sair (stdin : list string) :
  Forall (fun linha => eh_sair linha = false) stdin →
  ∃ antes,
    main stdin = Some (antes ++ [MPedeAcusado; MSemAcusacao; MFim])
    ∧ MEncerrar ∉ antes.
Proof.
  intros Hn. destruct (main_forma stdin) as (st' & out & He & _ & Hm).
  rewrite (depois_de_sair_nenhum _ Hn) in *.
  exists (MTitulo :: MComeco :: out ++ MCabecalhoPistas :: listar_pistas (rootPistas st')).
  split.
  - rewrite Hm. simpl. do 3 f_equal. by rewrite <- app_assoc.
  - destruct (explorar_loop_resto _ _ _ _ _ He) as [_ Hout].
    rewrite !elem_of_cons, elem_of_app, elem_of_cons, Hout.
    intros [?|[?|[(l & Hl & E)|[?|Hlist]]]]; try done.
    + rewrite Forall_forall in Hn. rewrite (Hn l Hl) in E. done.
    + unfold listar_pistas in Hlist. destruct (rootPistas st').
      * by apply list_elem_of_singleton in Hlist.
      * apply list_elem_of_fmap in Hlist as (pc & ? & _). done.
Qed.

End Programa.

(** ** Instances on the sample data *)

Section Instancias.

Lemma tabela_ex_ok : tabela_ok tabela_ex.
Proof. reflexivity. Qed.

Lemma inserirNaHash_no_balde_witness :
  tabela_ok tabela_ex
  ∧ tabela_ok (inserirNaHash tabela_ex "A" "W")
  ∧ inserirNaHash tabela_ex "A" "W" !! balde "A"
    = Some [mkEntry "A" "W"; mkEntry "A" "X"].
Proof.
  assert (H : tabela_ok tabela_ex) by reflexivity.
  destruct (inserirNaHash_no_balde tabela_ex "A" "W" H) as (H1 & _ & _).
  split; [exact H|]. split; [exact H1|]. reflexivity.
Defined.

Lemma encontrar_apos_inserir_witness :
  tabela_ok tabela_ex
  ∧ encontrarSuspeito (inserirNaHash tabela_ex "A" "W") "A" = Some "W"
  ∧ encontrarSuspeito (inserirNaHash tabela_ex "A" "W") "B"
    = encontrarSuspeito tabela_ex "B".
Proof.
  assert (H : tabela_ok tabela_ex) by reflexivity.
  destruct (encontrar_apos_inserir tabela_ex "A" "W" H) as [H1 H2].
  split; [exact H|]. split; [exact H1|]. apply H2. discriminate.
Defined.

Lemma liberarHash_esvazia_witness :
  tabela_ok tabela_ex
  ∧ liberarHash tabela_ex = tabela_vazia
  ∧ encontrarSuspeito (liberarHash tabela_ex) "A" = None.
Proof.
  assert (H : tabela_ok tabela_ex) by reflexivity.
  destruct (liberarHash_esvazia tabela_ex H) as (H1 & H2 & _).
  split; [exact H|]. split; [exact H1 | apply H2].
Defined.

Lemma contar_apos_inserir_witness :
  contarPistasQueApontam tabela_ex ledger_ex "X" < INT_MAX
  ∧ contarPistasQueApontam tabela_ex (inserirPista ledger_ex "C") "X"
    = contarPistasQueApontam tabela_ex ledger_ex "X" + 1.
Proof.
  assert (H : contarPistasQueApontam tabela_ex ledger_ex "X" < INT_MAX) by reflexivity.
  split; [exact H|]. apply (contar_apos_inserir tabela_ex ledger_ex "C" "X" H).
Defined.

Lemma acusado_desconhecido_witness :
  trim_nl ("sra. beatriz" +:+ nl) ≠ EmptyString
  ∧ fase_acusacao (preencher tabela_vazia associacoes)
      (coletar PNil ["Copo quebrado com pegadas"; "notas rasgadas com iniciais A.B."])
      (Some ("sra. beatriz" +:+ nl))
    = [MPedeAcusado; MAcusou (trim_nl ("sra. beatriz" +:+ nl));
       MNumero (trim_nl ("sra. beatriz" +:+ nl)) 0; MFraca].
Proof.
  assert (H1 : trim_nl ("sra. beatriz" +:+ nl) ≠ EmptyString) by discriminate.
  assert (H2 : trim_nl ("sra. beatriz" +:+ nl) ∉ associacoes.*2).
  { apply (bool_decide_unpack _). by vm_compute. }
  split; [exact H1|].
  apply (proj2 (acusado_desconhecido associacoes _ _ H1 H2)).
Defined.

Lemma mansao_arvore : ∃ D, arvore mansao (Some hall) D ∧ dom mansao = D ∧ size D = 7%nat.
Proof.
  eexists. split; [|split].
  - eapply (arvore_no _ hall); [reflexivity| | | | |]; simpl.
    + eapply (arvore_no _ biblioteca); [reflexivity| | | | |]; simpl.
      * eapply (arvore_no _ cozinha); [reflexivity| | | | |]; simpl;
          [apply arvore_nil | apply arvore_nil | set_solver ..].
      * eapply (arvore_no _ jardim); [reflexivity| | | | |]; simpl;
          [apply arvore_nil | apply arvore_nil | set_solver ..].
      * by vm_compute.
      * by vm_compute.
      * apply (bool_decide_unpack _). by vm_compute.
    + eapply (arvore_no _ salaEstar); [reflexivity| | | | |]; simpl.
      * eapply (arvore_no _ corredor); [reflexivity| | | | |]; simpl;
          [apply arvore_nil | apply arvore_nil | set_solver ..].
      * eapply (arvore_no _ oficina); [reflexivity| | | | |]; simpl;
          [apply arvore_nil | apply arvore_nil | set_solver ..].
      * by vm_compute.
      * by vm_compute.
      * apply (bool_decide_unpack _). by vm_compute.
    + by vm_compute.
    + by vm_compute.
    + apply (bool_decide_unpack _). by vm_compute.
  - by vm_compute.
  - by vm_compute.
Qed.

Lemma mansao_por_coletar : map_Forall (fun _ s => pistaColetada s = false) mansao.
Proof. apply (bool_decide_unpack _). by vm_compute. Qed.

Lemma estado_inicial_coerente : coerente estado_inicial.
Proof.
  split; simpl.
  - intros a s Hs Hc. by rewrite (mansao_por_coletar a s Hs) in Hc.
  - intros k Hk. unfold chaves in Hk. simpl in Hk. by apply not_elem_of_nil in Hk.
Qed.

Lemma mansao_pistas_distintas : pistas_distintas mansao.
Proof. unfold pistas_distintas. apply (bool_decide_unpack _). by vm_compute. Qed.

Lemma exploracao_ledger_witness :
  bem_formado (mkEstado mansao hall PNil)
  ∧ ∃ st' resto out,
      explorarSalasComPistas mansao hall PNil ["d" +:+ nl; "e" +:+ nl; "s" +:+ nl]
      = Some (st', resto, out)
      ∧ rootPistas st' = coletar PNil (pistas_encontradas out)
      ∧ (bst PNil → bst (rootPistas st')).
Proof.
  assert (H : bem_formado (mkEstado mansao hall PNil)).
  { split; apply (bool_decide_unpack _); by vm_compute. }
  split; [exact H|]. apply (exploracao_ledger mansao hall PNil _ H).
Defined.

Lemma exploracao_uma_pista_por_sala_witness :
  bem_formado (mkEstado mansao hall PNil)
  ∧ pendentes mansao = 5%nat
  ∧ ∃ st' resto out,
      explorarSalasComPistas mansao hall PNil ["d" +:+ nl; "x" +:+ nl; "s" +:+ nl]
      = Some (st', resto, out)
      ∧ (length (pistas_encontradas out) + pendentes (salas st') = pendentes mansao)%nat.
Proof.
  assert (H : bem_formado (mkEstado mansao hall PNil)).
  { split; apply (bool_decide_unpack _); by vm_compute. }
  split; [exact H|]. split; [by vm_compute|].
  apply (exploracao_uma_pista_por_sala mansao hall PNil _ H).
Defined.

Lemma exploracao_consome_ate_sair_witness :
  bem_formado (mkEstado mansao hall PNil)
  ∧ depois_de_sair ["e" +:+ nl; "Sair" +:+ nl; "Sr. Almeida" +:+ nl; "s" +:+ nl]
    = ["Sr. Almeida" +:+ nl; "s" +:+ nl]
  ∧ ∃ st' out,
      explorarSalasComPistas mansao hall PNil
        ["e" +:+ nl; "Sair" +:+ nl; "Sr. Almeida" +:+ nl; "s" +:+ nl]
      = Some (st',
              depois_de_sair ["e" +:+ nl; "Sair" +:+ nl; "Sr. Almeida" +:+ nl; "s" +:+ nl],
              out)
      ∧ (MEncerrar ∈ out ↔
         ∃ linha,
           linha ∈ ["e" +:+ nl; "Sair" +:+ nl; "Sr. Almeida" +:+ nl; "s" +:+ nl]
           ∧ eh_sair linha = true).
Proof.
  assert (H : bem_formado (mkEstado mansao hall PNil)).
  { split; apply (bool_decide_unpack _); by vm_compute. }
  split; [exact H|]. split; [reflexivity|].
  apply (exploracao_consome_ate_sair mansao hall PNil _ H).
Defined.

Lemma exploracao_so_desce_witness :
  bem_formado (mkEstado mansao hall PNil)
  ∧ ∃ st' resto out,
      explorarSalasComPistas mansao hall PNil ["d" +:+ nl; "e" +:+ nl; "e" +:+ nl]
      = Some (st', resto, out)
      ∧ bem_formado st'
      ∧ rtc (filho mansao) hall (atual st')
      ∧ ∀ a, planta <$> salas st' !! a = planta <$> mansao !! a.
Proof.
  assert (H : bem_formado (mkEstado mansao hall PNil)).
  { split; apply (bool_decide_unpack _); by vm_compute. }
  split; [exact H|]. apply (exploracao_so_desce mansao hall PNil _ H).
Defined.

Lemma exploracao_coerente_witness :
  bem_formado (mkEstado mansao hall PNil)
  ∧ coerente (mkEstado mansao hall PNil)
  ∧ ∃ st' resto out,
      explorarSalasComPistas mansao hall PNil ["e" +:+ nl; "d" +:+ nl]
      = Some (st', resto, out)
      ∧ coerente st'.
Proof.
  assert (H : bem_formado (mkEstado mansao hall PNil)).
  { split; apply (bool_decide_unpack _); by vm_compute. }
  split; [exact H|]. split; [exact estado_inicial_coerente|].
  apply (exploracao_coerente mansao hall PNil _ H estado_inicial_coerente).
Defined.

Lemma exploracao_contadores_um_witness :
  bem_formado (mkEstado mansao hall PNil)
  ∧ pistas_distintas mansao
  ∧ ∃ st' resto out,
      explorarSalasComPistas mansao hall PNil ["e" +:+ nl; nl; "x" +:+ nl; "e" +:+ nl]
      = Some (st', resto, out)
      ∧ Forall (fun pc => pc.2 = 1) (exibirPistasInOrder (rootPistas st')).
Proof.
  assert (H : bem_formado (mkEstado mansao hall PNil)).
  { split; apply (bool_decide_unpack _); by vm_compute. }
  assert (Hd : pistas_distintas mansao).
  { unfold pistas_distintas. apply (bool_decide_unpack _). by vm_compute. }
  split; [exact H|]. split; [exact Hd|].
  apply (exploracao_contadores_um mansao hall _ H Hd).
Defined.

Lemma liberarSalas_libera_arvore_witness :
  ∃ D, arvore mansao (Some hall) D
       ∧ (size D ≤ 7)%nat
       ∧ liberarSalas 7 mansao (Some hall) = Liberado (sem D mansao).
Proof.
  destruct mansao_arvore as (D & Ha & _ & Hs).
  assert (Hf : (size D ≤ 7)%nat) by (rewrite Hs; lia).
  exists D. split; [exact Ha|]. split; [exact Hf|].
  apply (proj1 (liberarSalas_libera_arvore mansao (Some hall) D 7 Ha Hf)).
Defined.

Example liberarSalas_mansao : liberarSalas 7 mansao (Some hall) = Liberado ∅.
Proof. by vm_compute. Qed.

Lemma liberarSalas_depois_de_explorar_witness :
  bem_formado (mkEstado mansao hall PNil)
  ∧ ∃ D, arvore mansao (Some hall) D ∧ dom mansao = D
         ∧ ∃ st' resto out,
             explorarSalasComPistas mansao hall PNil ["e" +:+ nl; "d" +:+ nl; "s" +:+ nl]
             = Some (st', resto, out)
             ∧ liberarSalas (size D) (salas st') (Some hall) = Liberado ∅.
Proof.
  assert (H : bem_formado (mkEstado mansao hall PNil)).
  { split; apply (bool_decide_unpack _); by vm_compute. }
  split; [exact H|].
  destruct mansao_arvore as (D & Ha & Hd & _).
  exists D. split; [exact Ha|]. split; [exact Hd|].
  apply (liberarSalas_depois_de_explorar mansao hall PNil _ D H Ha Hd).
Defined.

Lemma main_sem_sair_witness :
  Forall (fun linha => eh_sair linha = false) ["e" +:+ nl; "d" +:+ nl; "Almeida" +:+ nl]
  ∧ ∃ antes,
      main ["e" +:+ nl; "d" +:+ nl; "Almeida" +:+ nl]
      = Some (antes ++ [MPedeAcusado; MSemAcusacao; MFim])
      ∧ MEncerrar ∉ antes.
Proof.
  assert (H : Forall (fun linha => eh_sair linha = false)
                     ["e" +:+ nl; "d" +:+ nl; "Almeida" +:+ nl]).
  { repeat constructor. }
  split; [exact H|]. apply (main_sem_sair _ H).
Defined.

Lemma contadores_sao_ocorrencias_witness :
  Z.of_nat (length ["B"; "A"; "C"; "A"]) ≤ INT_MAX
  ∧ (("A", 2) ∈ exibirPistasInOrder (coletar PNil ["B"; "A"; "C"; "A"])
     ↔ 2 = ocorrencias "A" ["B"; "A"; "C"; "A"] ∧ 0 < 2)
  ∧ contagem_total (exibirPistasInOrder (coletar PNil ["B"; "A"; "C"; "A"])) = 4.
Proof.
  assert (H : Z.of_nat (length ["B"; "A"; "C"; "A"]) ≤ INT_MAX) by (by vm_compute).
  destruct (contadores_sao_ocorrencias ["B"; "A"; "C"; "A"] H) as [H1 H2].
  split; [exact H|]. split; [apply H1 | exact H2].
Defined.

End Instancias.
